(** * A capacity-aware reverse-proxy load balancer: pool, selection, failover

    Shallow embedding of the Go program (package main): the [Backend] and
    [Servers] types with their methods, the request entry point [lb] and the
    proxy error handler [DefaultErrorHandler].

    Modelling conventions.
    - The pool [Servers.backends] is a slice of [*Backend]: members are
      pointers into a heap of [Backend] objects, so two members (or a member
      and a returned value) may alias.  A pointer the heap does not map plays
      the role of [nil]: dereferencing it panics.
    - Go's [int] is taken to be 64 bits wide and [uint64] is 64 bits wide;
      arithmetic wraps around as the language prescribes.
    - A run-time panic keeps the state built so far (net/http recovers a
      panicking handler and keeps serving), so every operation yields an
      outcome, the state it left behind and the effects it performed.
    - The per-backend [sync.RWMutex] only serialises accesses; the embedding
      is sequential and has no counterpart for it.
    - [*url.URL] values are represented by their [String()] rendering. *)

From Stdlib Require Import ZArith String.
From stdpp Require Import base tactics option list gmap strings relations.

Local Open Scope Z_scope.

(** ** Machine integers *)

Module MachineInt.

Definition int_modulus : Z := 2 ^ 64.
Definition int_half : Z := 2 ^ 63.

(** value of a 64-bit pattern read as [uint64] *)
Definition wrap_uint64 (z : Z) : Z := z mod int_modulus.

(** value of a 64-bit pattern read as [int] *)
Definition wrap_int (z : Z) : Z :=
  (z + int_half) mod int_modulus - int_half.

End MachineInt.
Export MachineInt.

(** ** Data model *)

(** [type Backend struct]: the fields the balancer itself reads or writes.
    [Proxy] is the external forwarding collaborator, see [ServeHTTP] below. *)
Record Backend : Type := mkBackend {
  URL : string;
  Alive : bool;
  capacity : Z;
  flow : Z
}.

Abbreviation ptr := nat.

(** [type Servers struct] *)
Record Servers : Type := mkServers {
  backends : list ptr;
  current : Z
}.

(** The process state: the heap of [Backend] objects and the package-level
    variable [servers]. *)
Record World : Type := mkWorld {
  heap : gmap nat Backend;
  servers : Servers
}.

(** Keys and values of a request's [context.Context]. *)
Inductive ctxkey : Type :=
  | KString (s : string)
  | KOther (n : nat).

Inductive any : Type :=
  | AInt (z : Z)
  | AOther.

Definition context : Type := list (ctxkey * any).

(** ** Effects *)

Inductive panic : Type :=
  | IndexOutOfRange (i : Z) (len : nat)
  | NilDereference
  | DivideByZero.

(** What a computation did, in order.  [EvSetAlive] and [EvGetNextBackend]
    record that the method was entered (with its arguments); the others are
    calls into the collaborators. *)
Inductive event : Type :=
  | EvSetAlive (p : ptr) (alive : bool)     (* b.SetAlive(alive) completed on *p *)
  | EvGetNextBackend                         (* servers.GetNextBackend() entered *)
  | EvDial (u : string) (reachable : bool)  (* net.DialTimeout and its answer *)
  | EvSleep (ms : Z)                        (* <-time.After(ms * time.Millisecond) *)
  | EvDispatch (p : ptr) (ctx : context)    (* ServeHTTP of the proxy of backend p *)
  | EvForwarded (p : ptr)                   (* the proxy answered the client *)
  | EvRespond (status : Z).                 (* http.Error(w, _, status) *)

Inductive outcome (A : Type) : Type :=
  | Ok (a : A)
  | Panic (e : panic)
  | OutOfFuel.
Arguments Ok {A} a.
Arguments Panic {A} e.
Arguments OutOfFuel {A}.

(** A computation: outcome, state left behind, effects performed. *)
Definition M (A : Type) : Type := World → outcome A * World * list event.

Definition ret {A} (a : A) : M A := λ w, (Ok a, w, []).

Definition bind {A B} (m : M A) (k : A → M B) : M B := λ w,
  match m w with
  | (Ok a, w1, t1) =>
      match k a w1 with (r, w2, t2) => (r, w2, t1 ++ t2) end
  | (Panic e, w1, t1) => (Panic e, w1, t1)
  | (OutOfFuel, w1, t1) => (OutOfFuel, w1, t1)
  end.

Notation "'do' x <- m ; k" := (bind m (λ x, k))
  (at level 10, x name, m at level 99, k at level 200,
   format "'[v' 'do'  x  <-  m ; '/' k ']'").
Notation "m ;; k" := (bind m (λ _, k))
  (at level 100, k at level 200, right associativity).

Definition throw {A} (e : panic) : M A := λ w, (Panic e, w, []).
Definition out_of_fuel {A} : M A := λ w, (OutOfFuel, w, []).
Definition emit (e : event) : M unit := λ w, (Ok tt, w, [e]).
Definition get : M World := λ w, (Ok w, w, []).

(** an update of the package-level variable [servers] *)
Definition modify_servers (f : Servers → Servers) : M unit := λ w,
  (Ok tt, mkWorld (heap w) (f (servers w)), []).

Definition result {A} (r : outcome A * World * list event) : outcome A := r.1.1.
Definition final {A} (r : outcome A * World * list event) : World := r.1.2.
Definition effects {A} (r : outcome A * World * list event) : list event := r.2.

(** ** Primitive accesses *)

(** [len(s.backends)] *)
Definition len (w : World) : Z := Z.of_nat (length (backends (servers w))).

(** [s.backends[i]] as an r-value *)
Definition index (i : Z) : M ptr := λ w,
  let bs := backends (servers w) in
  match (if 0 <=? i then bs !! Z.to_nat i else None) with
  | Some p => (Ok p, w, [])
  | None => (Panic (IndexOutOfRange i (length bs)), w, [])
  end.

(** [s.backends[i] = p] *)
Definition assign (i : Z) (p : ptr) : M unit :=
  do w <- get;
  let bs := backends (servers w) in
  if (0 <=? i) && (i <? Z.of_nat (length bs)) then
    modify_servers (λ s, mkServers (<[Z.to_nat i := p]> (backends s)) (current s))
  else throw (IndexOutOfRange i (length bs)).

(** [*p] *)
Definition load (p : ptr) : M Backend := λ w,
  match heap w !! p with
  | Some b => (Ok b, w, [])
  | None => (Panic NilDereference, w, [])
  end.

Definition store (p : ptr) (b : Backend) : M unit := λ w,
  (Ok tt, mkWorld (<[p := b]> (heap w)) (servers w), []).

(** ** Backend methods *)

Definition SetAlive (p : ptr) (alive : bool) : M unit :=
  do b <- load p;
  store p (mkBackend (URL b) alive (capacity b) (flow b)) ;;
  emit (EvSetAlive p alive).

Definition IsAlive (p : ptr) : M bool :=
  do b <- load p; ret (Alive b).

(** [free = b.capacity - int(b.flow)] *)
Definition Free (p : ptr) : M Z :=
  do b <- load p; ret (wrap_int (capacity b - wrap_int (flow b))).

(** ** Servers methods *)

(** [s.backends[i], s.backends[j] = s.backends[j], s.backends[i]] *)
Definition swap (i j : Z) : M unit :=
  do x <- index j;
  do y <- index i;
  assign i x ;;
  assign j y.

(** The loop of [AddBackend]; [idx] is never updated by the body. *)
Fixpoint AddBackend_loop (fuel : nat) (idx : Z) : M unit :=
  match fuel with
  | O => out_of_fuel
  | S fuel' =>
      do p <- index idx;
      do b <- load p;
      do q <- index (idx - 1);
      do c <- load q;
      if (capacity b >? capacity c) && negb (idx =? 0) then
        swap (idx - 1) idx ;;
        AddBackend_loop fuel' idx
      else ret tt
  end.

Definition AddBackend (backend : ptr) : M unit :=
  modify_servers (λ s, mkServers (backends s ++ [backend]) (current s)) ;;
  do w <- get;
  let idx := len w in
  AddBackend_loop (S (Z.to_nat idx)) idx.

(** [atomic.AddUint64(&s.current, 1) % uint64(len(s.backends))] *)
Definition NextIndex : M Z :=
  modify_servers (λ s, mkServers (backends s) (wrap_uint64 (current s + 1))) ;;
  do w <- get;
  if wrap_uint64 (len w) =? 0 then throw DivideByZero
  else ret (wrap_int (current (servers w) mod wrap_uint64 (len w))).

(** [for _, b := range bs { body b }] over the slice as it was when the
    loop started; [k] counts the iterations done. *)
Fixpoint range (body : nat → ptr → M unit) (k : nat) (bs : list ptr) : M unit :=
  match bs with
  | [] => ret tt
  | p :: rest => body k p ;; range body (S k) rest
  end.

(** the body of the loop of [MarkBackendStatus] *)
Definition mark_member (backendUrl : string) (alive : bool)
    (_ : nat) (backend : ptr) : M unit :=
  do b <- load backend;
  if String.eqb (URL b) backendUrl then SetAlive backend alive
  else ret tt.

Definition MarkBackendStatus (backendUrl : string) (alive : bool) : M unit :=
  do w <- get;
  range (mark_member backendUrl alive) 0%nat (backends (servers w)).

(** The loop of [Tidy]: the condition reads [s.backends[idx]] and
    [s.backends[idx+1]] before it compares [idx+1] with [l]. *)
Fixpoint Tidy_loop (fuel : nat) (l : Z) (idx : Z) : M unit :=
  match fuel with
  | O => out_of_fuel
  | S fuel' =>
      do p <- index idx;
      do fp <- Free p;
      do q <- index (idx + 1);
      do fq <- Free q;
      if (fp >? fq) && (idx + 1 <? l) then
        swap idx (idx + 1) ;;
        Tidy_loop fuel' l (idx - 1)
      else ret tt
  end.

Definition Tidy (idx : Z) : M unit :=
  do w <- get;
  Tidy_loop (S (Z.to_nat (idx + 1))) (len w) idx.

(** The scan of [GetNextBackend]: [for !s.backends[next].IsAlive() { next++ }] *)
Fixpoint scan_alive (fuel : nat) (next : Z) : M Z :=
  match fuel with
  | O => out_of_fuel
  | S fuel' =>
      do p <- index next;
      do a <- IsAlive p;
      if negb a then scan_alive fuel' (next + 1) else ret next
  end.

(** [defer s.Tidy(next)] runs after the result [s.backends[next]] has been
    evaluated; when the deferred call panics the result is lost. *)
Definition GetNextBackend : M ptr :=
  emit EvGetNextBackend ;;
  do w <- get;
  do next <- scan_alive (S (length (backends (servers w)))) 0;
  (if negb (next =? 0) then
     modify_servers (λ s, mkServers (backends s) (wrap_uint64 next))
   else ret tt) ;;
  do r <- index next;
  Tidy next ;;
  ret r.

(** [isBackendAlive]: [defer conn.Close()] is reached with a nil [conn]
    whenever the dial failed. *)
Definition isBackendAlive (dial : string → bool) (u : string) : M bool :=
  let reachable := dial u in
  emit (EvDial u reachable) ;;
  if reachable then ret true else throw NilDereference.

(** the body of the loop of [HealthCheck]; [dial k u] is the answer of the
    network to the probe of the [k]-th member *)
Definition check_member (dial : nat → string → bool) (k : nat) (b : ptr) : M unit :=
  do backend <- load b;
  do alive <- isBackendAlive (dial k) (URL backend);
  SetAlive b alive.

Definition HealthCheck (dial : nat → string → bool) : M unit :=
  do w <- get;
  range (check_member dial) 0%nat (backends (servers w)).

(** ** Request context *)

Definition ctxkey_eqb (a b : ctxkey) : bool :=
  match a, b with
  | KString s, KString t => String.eqb s t
  | KOther n, KOther m => Nat.eqb n m
  | _, _ => false
  end.

(** [ctx.Value(key)]: the innermost binding of [key] *)
Fixpoint Value (ctx : context) (key : ctxkey) : option any :=
  match ctx with
  | [] => None
  | (k, v) :: parent => if ctxkey_eqb k key then Some v else Value parent key
  end.

Definition WithValue (parent : context) (key : ctxkey) (val : any) : context :=
  (key, val) :: parent.

Definition GetAttemptsFromContext (r : context) : Z :=
  match Value r (KString "Attempts") with
  | Some (AInt attempts) => attempts
  | _ => 1
  end.

Definition GetRetryFromContext (r : context) : Z :=
  match Value r (KString "Retry") with
  | Some (AInt retries) => retries
  | _ => 0
  end.

(** ** Request handling *)

(** What a handler does last: hand the request to [lb] or to the reverse
    proxy of backend [p]. *)
Inductive call : Type :=
  | CallLb (r : context)
  | CallServeHTTP (p : ptr) (r : context).

Definition StatusServiceUnavailable : Z := 503.

Definition lb (r : context) : M (option call) :=
  let attempts := GetAttemptsFromContext r in
  if attempts >? 3 then
    emit (EvRespond StatusServiceUnavailable) ;;
    ret None
  else
    do backend <- GetNextBackend;
    do w <- get;
    match heap w !! backend with
    | Some _ => ret (Some (CallServeHTTP backend r))
    | None =>
        emit (EvRespond StatusServiceUnavailable) ;;
        ret None
    end.

Section Controller.

(** [DefaultErrorHandler] names the context keys [Retry] and [Attempts];
    the sources at hand declare neither, so they are parameters here.  (The
    readers [GetRetryFromContext] and [GetAttemptsFromContext] use the string
    keys "Retry" and "Attempts".) *)
Variables Retry Attempts : ctxkey.

(** The forwarding collaborator: does the [n]-th dispatch of the request,
    sent to backend [p], succeed? *)
Variable forward : nat → ptr → bool.

(** The handler built by [DefaultErrorHandler(serverUrl)] and installed on
    the proxy of backend [p].  Its body mentions [r] and [request], [w] and
    [writer], [proxy], and [MarckBackendStatus]: they are read as the request
    and the writer the handler was called with, the proxy the handler is
    installed on, and [MarkBackendStatus]. *)
Definition DefaultErrorHandler (serverUrl : string) (p : ptr) (r : context)
  : M (option call) :=
  let retries := GetRetryFromContext r in
  if retries <? 3 then
    emit (EvSleep 10) ;;
    ret (Some (CallServeHTTP p (WithValue r Retry (AInt retries))))
  else
    MarkBackendStatus serverUrl false ;;
    let attempts := GetAttemptsFromContext r in
    ret (Some (CallLb (WithValue r Attempts (AInt (wrap_int (attempts + 1)))))).

(** [backend.Proxy.ServeHTTP(w, r)]: the proxy forwards the request and
    calls its error handler when that fails; main gives the proxy of a
    backend the error handler built from that backend's own URL. *)
Definition ServeHTTP (n : nat) (p : ptr) (r : context) : M (option call) :=
  do b <- load p;
  emit (EvDispatch p r) ;;
  if forward n p then
    emit (EvForwarded p) ;;
    ret None
  else
    DefaultErrorHandler (URL b) p r.

(** One inbound request, from the handler [c] on; [n] dispatches were made
    before. *)
Fixpoint serve (fuel : nat) (n : nat) (c : call) : M unit :=
  match fuel with
  | O => out_of_fuel
  | S fuel' =>
      match c with
      | CallLb r =>
          do next <- lb r;
          match next with
          | Some c' => serve fuel' n c'
          | None => ret tt
          end
      | CallServeHTTP p r =>
          do next <- ServeHTTP n p r;
          match next with
          | Some c' => serve fuel' (S n) c'
          | None => ret tt
          end
      end
  end.

End Controller.

Definition always_fail : nat → ptr → bool := λ _ _, false.

Definition is_dispatch (e : event) : bool :=
  match e with EvDispatch _ _ => true | _ => false end.

Definition is_respond (e : event) : bool :=
  match e with EvRespond _ => true | _ => false end.

(** number of dispatch attempts in a trace *)
Definition dispatches (t : list event) : nat := length (List.filter is_dispatch t).

(** ** Sample states *)

Definition empty_pool : World := mkWorld ∅ (mkServers [] 0).

Definition pool_of (bs : list Backend) : World :=
  mkWorld (list_to_map (zip (seq 1 (length bs)) bs))
          (mkServers (seq 1 (length bs)) 0).

(** the pool main builds: every capacity and flow is zero *)
Definition fresh (u : string) : Backend := mkBackend u true 0 0.


(** States used as concrete inputs. *)
Definition one_alive : World := pool_of [fresh "a"].
Definition one_dead : World := pool_of [mkBackend "a" false 0 0].
Definition two_fresh : World := pool_of [fresh "a"; fresh "b"].
Definition three_fresh : World := pool_of [fresh "a"; fresh "b"; fresh "c"].
Definition frees_1_5_3 : World :=
  pool_of [mkBackend "a" true 1 0; mkBackend "b" true 5 0; mkBackend "c" true 3 0].
Definition frees_1_7_5_3_9 : World :=
  pool_of [mkBackend "a" true 1 0; mkBackend "b" true 7 0; mkBackend "c" true 5 0;
           mkBackend "d" true 3 0; mkBackend "e" true 9 0].
Definition frees_5_3 : World :=
  pool_of [mkBackend "a" true 5 0; mkBackend "b" true 3 0].

(** ** Predicates on states *)

(** the backend behind [p], if [p] is not nil *)
Definition alive_at (w : World) (p : ptr) : bool :=
  match heap w !! p with Some b => Alive b | None => false end.

Definition dead_at (w : World) (p : ptr) : bool :=
  match heap w !! p with Some b => negb (Alive b) | None => false end.

(** every member is a backend whose [Alive] flag is off *)
Definition all_dead (w : World) (ps : list ptr) : bool := forallb (dead_at w) ps.

(** every member is a backend (no nil entry) *)
Definition allocated (w : World) (ps : list ptr) : bool :=
  forallb (λ p, bool_decide (is_Some (heap w !! p))) ps.

(** [s.backends[i].Free()] when both the index and the pointer are valid *)
Definition free_at (w : World) (i : Z) : option Z :=
  if 0 <=? i then
    match backends (servers w) !! Z.to_nat i with
    | Some p =>
        match heap w !! p with
        | Some b => Some (wrap_int (capacity b - wrap_int (flow b)))
        | None => None
        end
    | None => None
    end
  else None.

(** some member of [ps] has the address [u] *)
Definition has_address (w : World) (u : string) (ps : list ptr) : bool :=
  existsb (λ p, match heap w !! p with
                | Some b => String.eqb (URL b) u
                | None => false
                end) ps.

(** the addresses of the members *)
Definition addresses (w : World) (ps : list ptr) : list string :=
  omap (λ p, URL <$> heap w !! p) ps.

(** one exchange of two neighbours *)
Inductive adjacent_swap {A : Type} : list A → list A → Prop :=
  | adjacent_swap_at (l1 : list A) (a b : A) (l2 : list A) :
      adjacent_swap (l1 ++ a :: b :: l2) (l1 ++ b :: a :: l2).

(** the two heaps hold the same objects, up to their [Alive] flags *)
Definition same_but_alive (h h' : gmap nat Backend) : Prop :=
  ∀ p : nat,
    match h !! p, h' !! p with
    | Some b, Some b' =>
        URL b' = URL b ∧ capacity b' = capacity b ∧ flow b' = flow b
    | None, None => True
    | _, _ => False
    end.

(** ** Relations between the state before and after, and the effects *)

Definition spec : Type := World → World → list event → Prop.

(** relations closed under doing nothing and under sequencing *)
Class Composable (R : spec) : Prop := {
  comp_stutter : ∀ w, R w w [];
  comp_seq : ∀ w w1 w2 t1 t2, R w w1 t1 → R w1 w2 t2 → R w w2 (t1 ++ t2)
}.

Definition respects {A : Type} (R : spec) (m : M A) : Prop :=
  ∀ w, R w (final (m w)) (effects (m w)).

(** the heap is left as it was *)
Definition keeps_heap : spec := λ w w' _, heap w' = heap w.

(** the heap is left as it was and the members are only exchanged with
    their neighbours *)
Definition reorders : spec := λ w w' _,
  heap w' = heap w ∧ rtc adjacent_swap (backends (servers w)) (backends (servers w')).

(** [servers] is left as it was and only [Alive] flags change *)
Definition flips_flags : spec := λ w w' _,
  servers w' = servers w ∧ same_but_alive (heap w) (heap w').

(** a dead backend stays dead unless [SetAlive(true)] is called on it *)
Definition stays_dead (p : ptr) : spec := λ w w' t,
  dead_at w p = true → EvSetAlive p true ∉ t → dead_at w' p = true.

(** the cursor is left as it was *)
Definition keeps_current : spec := λ w w' _,
  current (servers w') = current (servers w).

(** a backend whose flag is [a] keeps that flag *)
Definition keeps_flag (p : ptr) (a : bool) : spec := λ w w' _,
  Alive <$> heap w !! p = Some a → Alive <$> heap w' !! p = Some a.

(** ** Histories of pool operations *)

Inductive op : Type :=
  | OpAddBackend (backend : ptr)
  | OpNextIndex
  | OpMarkBackendStatus (backendUrl : string) (alive : bool)
  | OpGetNextBackend
  | OpTidy (idx : Z)
  | OpHealthCheck (dial : nat → string → bool)
  | OpSetAlive (p : ptr) (alive : bool).

(** one call; the value is the backend handed out, when the call was
    [GetNextBackend] *)
Definition exec (o : op) : M (option ptr) :=
  match o with
  | OpAddBackend backend => AddBackend backend ;; ret None
  | OpNextIndex => NextIndex ;; ret None
  | OpMarkBackendStatus u alive => MarkBackendStatus u alive ;; ret None
  | OpGetNextBackend => do p <- GetNextBackend; ret (Some p)
  | OpTidy idx => Tidy idx ;; ret None
  | OpHealthCheck dial => HealthCheck dial ;; ret None
  | OpSetAlive p alive => SetAlive p alive ;; ret None
  end.

(** A sequence of calls, each on the state the call before left (a call
    that panicked included): the final state, all effects in order, and the
    backends [GetNextBackend] returned. *)
Fixpoint history (ops : list op) (w : World) : World * list event * list ptr :=
  match ops with
  | [] => (w, [], [])
  | o :: rest =>
      let r := exec o w in
      match history rest (final r) with
      | (w', t, sel) =>
          (w', effects r ++ t,
           match result r with Ok (Some p) => p :: sel | _ => sel end)
      end
  end.

(** nothing observable is done *)
Definition silent : spec := λ _ _ t, t = [].

(** ** The duplicate-address rule as the specification words it *)

(** [AddBackend] of a backend whose address some member already has leaves
    the pool no larger and free of duplicate addresses. *)
Definition rejects_duplicates (w : World) (backend : ptr) : Prop :=
  ∀ b, heap w !! backend = Some b →
       has_address w (URL b) (backends (servers w)) = true →
       let w' := final (AddBackend backend w) in
       (length (backends (servers w')) <= length (backends (servers w)))%nat
       ∧ NoDup (addresses w' (backends (servers w'))).

(** one member with address "a", and a second backend object with the same
    address that is not a member yet *)
Definition one_member_and_a_twin : World :=
  mkWorld (<[1%nat := fresh "a"]> (<[2%nat := fresh "a"]> ∅)) (mkServers [1%nat] 0).

(** the computation ends, normally or with a panic, within its budget *)
Definition terminates {A : Type} (m : M A) : Prop :=
  ∀ w, result (m w) ≠ OutOfFuel.

(** ** Descriptions used by the further properties *)

(** every probe of a sweep of [HealthCheck] over the members [bs], the
    first of which is the [k]-th, finds its backend reachable *)
Fixpoint all_reachable (dial : nat → string → bool) (w : World)
    (k : nat) (bs : list ptr) : bool :=
  match bs with
  | [] => true
  | p :: rest =>
      match heap w !! p with
      | Some b => dial k (URL b)
      | None => false
      end && all_reachable dial w (S k) rest
  end.

(** [SetAlive(false)] is not called *)
Definition never_sets_dead : spec := λ _ _ t, ∀ q, EvSetAlive q false ∉ t.

(** the object behind [q] once the flag of every member of [bs] with
    address [u] has been set to [a] *)
Definition marked (u : string) (a : bool) (bs : list ptr)
    (h : gmap nat Backend) (q : nat) : option Backend :=
  match h !! q with
  | Some c =>
      if bool_decide (q ∈ bs) && String.eqb (URL c) u
      then Some (mkBackend (URL c) a (capacity c) (flow c))
      else Some c
  | None => None
  end.

(** [p.Free()] as a value, when [p] is not nil *)
Definition free_of (w : World) (p : ptr) : option Z :=
  match heap w !! p with
  | Some b => Some (wrap_int (capacity b - wrap_int (flow b)))
  | None => None
  end.

(** the state with the cursor set to [c] *)
Definition with_current (w : World) (c : Z) : World :=
  mkWorld (heap w) (mkServers (backends (servers w)) c).

(** the number of [AddBackend] calls in a history *)
Definition adds (ops : list op) : nat :=
  length (List.filter (λ o, match o with OpAddBackend _ => true | _ => false end) ops).

(** the free capacity of [m] is known and above [f] *)
Definition above (w : World) (f : Z) (m : ptr) : bool :=
  match free_of w m with Some x => f <? x | None => false end.

(** every member is a backend with strictly more free capacity than every
    member after it *)
Fixpoint descending (w : World) (bs : list ptr) : bool :=
  match bs with
  | [] => true
  | p :: rest =>
      match free_of w p with
      | Some x =>
          forallb (λ m, match free_of w m with Some y => y <? x | None => false end) rest
      | None => false
      end && descending w rest
  end.

(** no request is dispatched *)
Definition no_dispatch : spec := λ _ _ t, dispatches t = 0%nat.

(** * Properties *)

(** ** Machine integers *)

Lemma wrap_int_small (z : Z) :
  - int_half <= z < int_half → wrap_int z = z.
Proof.
  intros Hz. unfold wrap_int.
  rewrite Z.mod_small; unfold int_modulus, int_half in *; lia.
Qed.

Lemma wrap_uint64_small (z : Z) :
  0 <= z < int_modulus → wrap_uint64 z = z.
Proof. intros Hz. unfold wrap_uint64. by rewrite Z.mod_small. Qed.

(** ** Sequencing *)

Lemma bind_pure {A B} (m : M A) (k : A → M B) w a :
  m w = (Ok a, w, []) → bind m k w = k a w.
Proof. intros Hm. unfold bind. rewrite Hm. by destruct (k a w) as [[? ?] ?]. Qed.

Lemma bind_Ok {A B} (m : M A) (k : A → M B) w a w1 t1 :
  m w = (Ok a, w1, t1) →
  bind m k w = (result (k a w1), final (k a w1), t1 ++ effects (k a w1)).
Proof. intros Hm. unfold bind. rewrite Hm. by destruct (k a w1) as [[? ?] ?]. Qed.

Lemma bind_Panic {A B} (m : M A) (k : A → M B) w e w1 t1 :
  m w = (Panic e, w1, t1) → bind m k w = (Panic e, w1, t1).
Proof. intros Hm. unfold bind. by rewrite Hm. Qed.

Lemma bind_OutOfFuel {A B} (m : M A) (k : A → M B) w w1 t1 :
  m w = (OutOfFuel, w1, t1) → bind m k w = (OutOfFuel, w1, t1).
Proof. intros Hm. unfold bind. by rewrite Hm. Qed.

Lemma bind_inv_Ok {A B} (m : M A) (k : A → M B) w b w' t :
  bind m k w = (Ok b, w', t) →
  ∃ a w1 t1 t2, m w = (Ok a, w1, t1) ∧ k a w1 = (Ok b, w', t2) ∧ t = t1 ++ t2.
Proof.
  unfold bind. destruct (m w) as [[[a| |] w1] t1]; [|done..].
  destruct (k a w1) as [[r w2] t2] eqn:Hk. intros [= -> -> <-].
  by exists a, w1, t1, t2.
Qed.

(** ** Primitive accesses *)

Lemma index_Some (i : Z) (w : World) (p : nat) :
  0 <= i → backends (servers w) !! Z.to_nat i = Some p →
  index i w = (Ok p, w, []).
Proof.
  intros Hi Hp. unfold index.
  destruct (Z.leb_spec 0 i); [|lia]. by rewrite Hp.
Qed.

Lemma index_out (i : Z) (w : World) :
  i < 0 ∨ len w <= i →
  index i w = (Panic (IndexOutOfRange i (length (backends (servers w)))), w, []).
Proof.
  intros Hi. unfold index, len in *.
  destruct (Z.leb_spec 0 i); [|done].
  rewrite (lookup_ge_None_2 (backends (servers w)) (Z.to_nat i)); [done|lia].
Qed.

Lemma index_inv_Ok (i : Z) (w w' : World) (p : nat) t :
  index i w = (Ok p, w', t) →
  0 <= i < len w ∧ backends (servers w) !! Z.to_nat i = Some p ∧ w' = w ∧ t = [].
Proof.
  unfold index, len. destruct (Z.leb_spec 0 i); [|done].
  destruct (backends (servers w) !! Z.to_nat i) as [q|] eqn:Hq; [|done].
  intros [= -> -> <-]. apply lookup_lt_Some in Hq as Hlt. repeat split; try done; lia.
Qed.

Lemma load_Some (p : nat) (w : World) (b : Backend) :
  heap w !! p = Some b → load p w = (Ok b, w, []).
Proof. intros Hb. unfold load. by rewrite Hb. Qed.

Lemma load_None (p : nat) (w : World) :
  heap w !! p = None → load p w = (Panic NilDereference, w, []).
Proof. intros Hb. unfold load. by rewrite Hb. Qed.

Lemma IsAlive_Some (p : nat) (w : World) (b : Backend) :
  heap w !! p = Some b → IsAlive p w = (Ok (Alive b), w, []).
Proof. intros Hb. unfold IsAlive. by rewrite (bind_pure _ _ _ _ (load_Some _ _ _ Hb)). Qed.

Lemma Free_Some (p : nat) (w : World) (b : Backend) :
  heap w !! p = Some b →
  Free p w = (Ok (wrap_int (capacity b - wrap_int (flow b))), w, []).
Proof. intros Hb. unfold Free. by rewrite (bind_pure _ _ _ _ (load_Some _ _ _ Hb)). Qed.

Lemma dead_at_Some (w : World) (p : nat) :
  dead_at w p = true → ∃ b, heap w !! p = Some b ∧ Alive b = false.
Proof.
  unfold dead_at. destruct (heap w !! p) as [b|]; [|done].
  intros Hb. exists b. split; [done|]. by destruct (Alive b).
Qed.

Lemma alive_at_Some (w : World) (p : nat) :
  alive_at w p = true → ∃ b, heap w !! p = Some b ∧ Alive b = true.
Proof.
  unfold alive_at. destruct (heap w !! p) as [b|]; [|done].
  intros Hb. by exists b.
Qed.

(** ** The scan of GetNextBackend *)

(** The scan walks over dead members without touching the state. *)
Lemma scan_alive_skip_dead (w : World) (pre : list nat) :
  ∀ (done rest : list nat) (fuel : nat),
    backends (servers w) = done ++ pre ++ rest →
    all_dead w pre = true →
    scan_alive (length pre + fuel) (Z.of_nat (length done)) w
    = scan_alive fuel (Z.of_nat (length done + length pre)) w.
Proof.
  induction pre as [|p pre IH]; intros done rest fuel Hbs Hdead.
  - simpl. by rewrite Nat.add_0_r.
  - simpl in Hdead. apply andb_prop in Hdead as [Hp Hpre].
    apply dead_at_Some in Hp as (b & Hb & Hab).
    change (length (p :: pre) + fuel)%nat with (S (length pre + fuel)).
    cbn [scan_alive].
    rewrite (bind_pure _ _ w p).
    2:{ apply index_Some; [lia|]. rewrite Nat2Z.id, Hbs.
        by rewrite lookup_app_r, Nat.sub_diag. }
    rewrite (bind_pure _ _ w _ (IsAlive_Some _ _ _ Hb)), Hab. cbn [negb].
    replace (Z.of_nat (length done) + 1) with (Z.of_nat (length (done ++ [p])))
      by (rewrite length_app; simpl; lia).
    rewrite (IH (done ++ [p]) rest fuel); [|by rewrite <- app_assoc|done].
    f_equal. rewrite length_app. simpl. f_equal. lia.
Qed.

Lemma scan_alive_all_dead (w : World) (fuel : nat) :
  all_dead w (backends (servers w)) = true →
  scan_alive (length (backends (servers w)) + S fuel) 0 w
  = (Panic (IndexOutOfRange (len w) (length (backends (servers w)))), w, []).
Proof.
  intros Hdead.
  pose proof (scan_alive_skip_dead w (backends (servers w)) [] [] (S fuel)) as Hskip.
  cbn [length app Nat.add] in Hskip. change (Z.of_nat 0) with 0 in Hskip.
  rewrite Hskip; [|by rewrite app_nil_r|done].
  cbn [scan_alive].
  apply bind_Panic. apply index_out. unfold len. lia.
Qed.

Lemma scan_alive_first_alive (w : World) (pre rest : list nat) (p : nat) (fuel : nat) :
  backends (servers w) = pre ++ p :: rest →
  all_dead w pre = true → alive_at w p = true →
  scan_alive (length pre + S fuel) 0 w = (Ok (Z.of_nat (length pre)), w, []).
Proof.
  intros Hbs Hdead Hp.
  pose proof (scan_alive_skip_dead w pre [] (p :: rest) (S fuel)) as Hskip.
  cbn [length app Nat.add] in Hskip. change (Z.of_nat 0) with 0 in Hskip.
  rewrite Hskip; [|done..].
  apply alive_at_Some in Hp as (b & Hb & Hab).
  cbn [scan_alive].
  rewrite (bind_pure _ _ w p).
  2:{ apply index_Some; [lia|]. rewrite Nat2Z.id, Hbs.
      by rewrite lookup_app_r, Nat.sub_diag. }
  by rewrite (bind_pure _ _ w _ (IsAlive_Some _ _ _ Hb)), Hab.
Qed.

(** ** Tidy at the ends of the list *)

Lemma get_pure (w : World) : get w = (Ok w, w, []).
Proof. done. Qed.

(** Called on the last member, the loop condition of [Tidy] reads the slot
    after it. *)
Lemma Tidy_at_last (w : World) (pre : list nat) (p : nat) :
  backends (servers w) = pre ++ [p] → is_Some (heap w !! p) →
  Tidy (Z.of_nat (length pre)) w
  = (Panic (IndexOutOfRange (len w) (length (backends (servers w)))), w, []).
Proof.
  intros Hbs [b Hb]. unfold Tidy.
  rewrite (bind_pure _ _ w w (get_pure w)). cbn [Tidy_loop].
  rewrite (bind_pure _ _ w p).
  2:{ apply index_Some; [lia|]. rewrite Nat2Z.id, Hbs.
      by rewrite lookup_app_r, Nat.sub_diag. }
  rewrite (bind_pure _ _ w _ (Free_Some _ _ _ Hb)).
  assert (Z.of_nat (length pre) + 1 = len w) as ->
    by (unfold len; rewrite Hbs, length_app; simpl; lia).
  apply bind_Panic, index_out. lia.
Qed.

(** The loop of [GetNextBackend] always ends: the scan stops at the latest
    when it leaves the slice. *)
Lemma GetNextBackend_no_alive (w : World) :
  all_dead w (backends (servers w)) = true →
  GetNextBackend w
  = (Panic (IndexOutOfRange (len w) (length (backends (servers w)))), w,
     [EvGetNextBackend]).
Proof.
  intros Hdead. unfold GetNextBackend.
  rewrite (bind_Ok _ _ w tt w [EvGetNextBackend]); [|done].
  rewrite (bind_pure _ _ w w (get_pure w)).
  replace (S (length (backends (servers w))))
    with (length (backends (servers w)) + 1)%nat by lia.
  by rewrite (bind_Panic _ _ _ _ _ _ (scan_alive_all_dead w 0 Hdead)).
Qed.

(** C1: in a pool with no alive backend (the empty pool included)
    [GetNextBackend] does not report not-found: its scan runs past the last
    member and panics with an index out of range, and [lb], called with a
    request that may still be dispatched, panics with it instead of
    answering service-unavailable. *)
Theorem GetNextBackend_no_alive_panics (w : World) (r : context) :
  all_dead w (backends (servers w)) = true →
  GetAttemptsFromContext r <= 3 →
  GetNextBackend w
  = (Panic (IndexOutOfRange (len w) (length (backends (servers w)))), w,
     [EvGetNextBackend])
  ∧ lb r w
    = (Panic (IndexOutOfRange (len w) (length (backends (servers w)))), w,
       [EvGetNextBackend]).
Proof.
  intros Hdead Hr. split; [by apply GetNextBackend_no_alive|].
  unfold lb. destruct (Z.gtb_spec (GetAttemptsFromContext r) 3); [lia|].
  by rewrite (bind_Panic _ _ _ _ _ _ (GetNextBackend_no_alive w Hdead)).
Qed.

Lemma GetNextBackend_no_alive_panics_witness :
  all_dead empty_pool (backends (servers empty_pool)) = true
  ∧ GetAttemptsFromContext [] <= 3
  ∧ GetNextBackend empty_pool
    = (Panic (IndexOutOfRange 0 0), empty_pool, [EvGetNextBackend])
  ∧ lb [] empty_pool
    = (Panic (IndexOutOfRange 0 0), empty_pool, [EvGetNextBackend]).
Proof.
  split; [reflexivity|]. split; [vm_compute; discriminate|].
  apply (GetNextBackend_no_alive_panics empty_pool []);
    [reflexivity | vm_compute; discriminate].
Defined.

(** The same on a pool whose single member is dead. *)
Example GetNextBackend_one_dead :
  result (GetNextBackend one_dead) = Panic (IndexOutOfRange 1 1)
  ∧ result (lb [] one_dead) = Panic (IndexOutOfRange 1 1)
  ∧ effects (lb [] one_dead) = [EvGetNextBackend].
Proof. by vm_compute. Qed.

(** C2: when the lowest-index alive backend is the last member of the pool
    (a pool of one alive backend, for instance), [GetNextBackend] selects it
    but the deferred [Tidy] reads the slot after it: the call panics with an
    index out of range and returns no backend. *)
Theorem GetNextBackend_last_alive_panics (w : World) (pre : list nat) (p : nat) :
  backends (servers w) = pre ++ [p] →
  all_dead w pre = true →
  alive_at w p = true →
  result (GetNextBackend w)
  = Panic (IndexOutOfRange (len w) (length (backends (servers w)))).
Proof.
  intros Hbs Hdead Hp. unfold GetNextBackend.
  rewrite (bind_Ok _ _ w tt w [EvGetNextBackend]); [|done].
  rewrite (bind_pure _ _ w w (get_pure w)).
  assert (S (length (backends (servers w))) = length pre + S 1)%nat as ->
    by (rewrite Hbs, length_app; simpl; lia).
  rewrite (bind_pure _ _ w _ (scan_alive_first_alive w pre [] p 1 Hbs Hdead Hp)).
  set (next := Z.of_nat (length pre)).
  set (w1 := if negb (next =? 0)
             then mkWorld (heap w) (mkServers (backends (servers w)) (wrap_uint64 next))
             else w).
  assert (backends (servers w1) = backends (servers w)) as Hbs1
    by (unfold w1; by destruct (negb (next =? 0))).
  assert (heap w1 = heap w) as Hh1
    by (unfold w1; by destruct (negb (next =? 0))).
  rewrite (bind_Ok _ _ w tt w1 []).
  2:{ unfold w1. by destruct (negb (next =? 0)). }
  rewrite (bind_pure _ _ w1 p).
  2:{ apply index_Some; [lia|]. unfold next. rewrite Nat2Z.id, Hbs1, Hbs.
      by rewrite lookup_app_r, Nat.sub_diag. }
  apply alive_at_Some in Hp as (b & Hb & _).
  rewrite (bind_Panic _ _ w1 _ w1 []
             (Tidy_at_last w1 pre p ltac:(by rewrite Hbs1)
                ltac:(rewrite Hh1; eauto))).
  unfold result, len. simpl. by rewrite Hbs1.
Qed.

Lemma GetNextBackend_last_alive_panics_witness :
  backends (servers one_alive) = [] ++ [1%nat]
  ∧ all_dead one_alive [] = true
  ∧ alive_at one_alive 1%nat = true
  ∧ result (GetNextBackend one_alive) = Panic (IndexOutOfRange 1 1).
Proof.
  split; [reflexivity|]. split; [reflexivity|]. split; [reflexivity|].
  apply (GetNextBackend_last_alive_panics one_alive [] 1%nat); reflexivity.
Defined.

(** C6: started at the last valid index, [Tidy] reads the slot past the
    last member before it compares [idx+1] with the length, and panics with
    an index out of range. *)
Theorem Tidy_last_index_out_of_range (w : World) (pre : list nat) (p : nat) :
  backends (servers w) = pre ++ [p] →
  is_Some (heap w !! p) →
  Tidy (len w - 1) w
  = (Panic (IndexOutOfRange (len w) (length (backends (servers w)))), w, []).
Proof.
  intros Hbs Hp.
  replace (len w - 1) with (Z.of_nat (length pre))
    by (unfold len; rewrite Hbs, length_app; simpl; lia).
  by apply (Tidy_at_last w pre p).
Qed.

Lemma Tidy_last_index_out_of_range_witness :
  backends (servers one_alive) = [] ++ [1%nat]
  ∧ is_Some (heap one_alive !! 1%nat)
  ∧ Tidy 0 one_alive = (Panic (IndexOutOfRange 1 1), one_alive, []).
Proof.
  split; [reflexivity|]. split; [by eexists|].
  apply (Tidy_last_index_out_of_range one_alive [] 1%nat); [reflexivity|by eexists].
Defined.

(** At the front, a swap at index 0 is followed by a read of index -1. *)
Example Tidy_reads_before_first :
  result (Tidy 0 frees_5_3) = Panic (IndexOutOfRange (-1) 2)
  ∧ backends (servers (final (Tidy 0 frees_5_3))) = [2; 1]%nat.
Proof. by vm_compute. Qed.

(** ** Relations kept by sequencing *)

Section Respects.
Context (R : spec) `{!Composable R}.

Lemma respects_bind {A B} (m : M A) (k : A → M B) :
  respects R m → (∀ a, respects R (k a)) → respects R (bind m k).
Proof.
  intros Hm Hk w. specialize (Hm w). unfold bind, final, effects in *.
  destruct (m w) as [[[a| |] w1] t1]; simpl in *; [|done..].
  specialize (Hk a w1). destruct (k a w1) as [[r w2] t2]. simpl in *.
  by eapply comp_seq.
Qed.

Lemma respects_ret {A} (a : A) : respects R (ret a).
Proof. intros w. apply comp_stutter. Qed.

Lemma respects_get : respects R get.
Proof. intros w. apply comp_stutter. Qed.

Lemma respects_throw {A} (e : panic) : respects R (@throw A e).
Proof. intros w. apply comp_stutter. Qed.

Lemma respects_out_of_fuel {A} : respects R (@out_of_fuel A).
Proof. intros w. apply comp_stutter. Qed.

Lemma respects_emit (e : event) : (∀ w, R w w [e]) → respects R (emit e).
Proof. intros He w. apply He. Qed.

Lemma respects_index (i : Z) : respects R (index i).
Proof.
  intros w. unfold index.
  destruct (if 0 <=? i then _ else _); apply comp_stutter.
Qed.

Lemma respects_load (p : nat) : respects R (load p).
Proof. intros w. unfold load. destruct (heap w !! p); apply comp_stutter. Qed.

Lemma respects_IsAlive (p : nat) : respects R (IsAlive p).
Proof. apply respects_bind; [apply respects_load|intros b; apply respects_ret]. Qed.

Lemma respects_Free (p : nat) : respects R (Free p).
Proof. apply respects_bind; [apply respects_load|intros b; apply respects_ret]. Qed.

Lemma respects_scan_alive (fuel : nat) (next : Z) : respects R (scan_alive fuel next).
Proof.
  revert next. induction fuel as [|fuel IH]; intros next; simpl.
  - apply respects_out_of_fuel.
  - apply respects_bind; [apply respects_index|intros p].
    apply respects_bind; [apply respects_IsAlive|intros a].
    destruct (negb a); [apply IH|apply respects_ret].
Qed.

Lemma respects_range (body : nat → nat → M unit) (bs : list nat) :
  (∀ k p, respects R (body k p)) → ∀ k, respects R (range body k bs).
Proof.
  intros Hbody. induction bs as [|p bs IH]; intros k; simpl.
  - apply respects_ret.
  - apply respects_bind; [apply Hbody|intros _; apply IH].
Qed.

End Respects.

Lemma respects_weaken {A} (R R' : spec) (m : M A) :
  (∀ w w' t, R w w' t → R' w w' t) → respects R m → respects R' m.
Proof. intros HR Hm w. apply HR, Hm. Qed.

(** Breaks a computation into its statements; [known] closes the calls
    whose behaviour is already established. *)
Ltac respects_steps_with known :=
  repeat first
    [ assumption
    | solve [known]
    | match goal with |- Composable _ => apply _ end
    | apply respects_ret | apply respects_get | apply respects_throw
    | apply respects_out_of_fuel
    | apply respects_emit; [..|by intros ?]
    | apply respects_index | apply respects_load
    | apply respects_IsAlive | apply respects_Free
    | apply respects_scan_alive
    | progress cbv zeta
    | match goal with
      | |- respects _ (if ?c then _ else _) => destruct c
      | |- respects _ (match ?c with Some _ => _ | None => _ end) => destruct c
      end
    | apply respects_range; [..|intros ? ?]
    | apply respects_bind; [..|intros ?] ].

Ltac respects_steps := respects_steps_with fail.

Global Instance keeps_heap_composable : Composable keeps_heap.
Proof.
  split; unfold keeps_heap; [done|].
  intros w w1 w2 _ _ H1 H2. by rewrite H2.
Qed.

Global Instance reorders_composable : Composable reorders.
Proof.
  split; unfold reorders; [done|].
  intros w w1 w2 _ _ [H1 S1] [H2 S2]. split; [by rewrite H2|by etrans].
Qed.

Lemma same_but_alive_refl (h : gmap nat Backend) : same_but_alive h h.
Proof. intros p. by destruct (h !! p). Qed.

Lemma same_but_alive_trans (h1 h2 h3 : gmap nat Backend) :
  same_but_alive h1 h2 → same_but_alive h2 h3 → same_but_alive h1 h3.
Proof.
  intros H12 H23 p. specialize (H12 p). specialize (H23 p).
  destruct (h1 !! p), (h2 !! p), (h3 !! p); try done.
  destruct H12 as (? & ? & ?), H23 as (? & ? & ?). repeat split; congruence.
Qed.

Global Instance flips_flags_composable : Composable flips_flags.
Proof.
  split; unfold flips_flags.
  - intros w. split; [done|apply same_but_alive_refl].
  - intros w w1 w2 _ _ [H1 S1] [H2 S2].
    split; [by rewrite H2|by eapply same_but_alive_trans].
Qed.

Global Instance stays_dead_composable (p : nat) : Composable (stays_dead p).
Proof.
  split; unfold stays_dead; [done|].
  intros w w1 w2 t1 t2 H1 H2 Hd Hno.
  apply H2; [apply H1; [done|]|]; intros Hin; apply Hno;
    apply elem_of_app; auto.
Qed.

Lemma keeps_heap_stays_dead (p : nat) (w w' : World) (t : list event) :
  keeps_heap w w' t → stays_dead p w w' t.
Proof. unfold keeps_heap, stays_dead, dead_at. by intros ->. Qed.

Lemma reorders_keeps_heap (w w' : World) (t : list event) :
  reorders w w' t → keeps_heap w w' t.
Proof. by intros [? _]. Qed.

(** ** What each operation leaves unchanged *)

Lemma modify_servers_keeps_heap (f : Servers → Servers) :
  respects keeps_heap (modify_servers f).
Proof. by intros w. Qed.

Lemma assign_keeps_heap (i : Z) (p : nat) : respects keeps_heap (assign i p).
Proof.
  unfold assign. respects_steps_with ltac:(apply modify_servers_keeps_heap).
Qed.

Lemma swap_keeps_heap (i j : Z) : respects keeps_heap (swap i j).
Proof. unfold swap. respects_steps_with ltac:(apply assign_keeps_heap). Qed.

Lemma AddBackend_loop_keeps_heap (fuel : nat) (idx : Z) :
  respects keeps_heap (AddBackend_loop fuel idx).
Proof.
  induction fuel as [|fuel IH]; simpl;
    respects_steps_with ltac:(apply swap_keeps_heap).
Qed.

Lemma AddBackend_keeps_heap (backend : nat) :
  respects keeps_heap (AddBackend backend).
Proof.
  unfold AddBackend.
  respects_steps_with
    ltac:(first [apply modify_servers_keeps_heap|apply AddBackend_loop_keeps_heap]).
Qed.

Lemma NextIndex_keeps_heap : respects keeps_heap NextIndex.
Proof.
  unfold NextIndex. respects_steps_with ltac:(apply modify_servers_keeps_heap).
Qed.

(** ** Exchanges of neighbours *)

Lemma adjacent_swap_cons {A} (a : A) (l l' : list A) :
  adjacent_swap l l' → adjacent_swap (a :: l) (a :: l').
Proof. intros [l1 x y l2]. apply (adjacent_swap_at (a :: l1)). Qed.

Lemma adjacent_swap_insert {A} (l : list A) (i : nat) (x y : A) :
  l !! i = Some y → l !! S i = Some x →
  adjacent_swap l (<[S i := y]> (<[i := x]> l)).
Proof.
  revert l. induction i as [|i IH]; intros [|a l]; try done.
  - destruct l as [|b l]; [done|]. simpl. intros [= ->] [= ->].
    apply (adjacent_swap_at []).
  - simpl. intros Hy Hx. by apply adjacent_swap_cons, IH.
Qed.

Lemma adjacent_swap_Permutation {A} (l l' : list A) :
  adjacent_swap l l' → l ≡ₚ l'.
Proof. intros [l1 a b l2]. apply Permutation_app_head, perm_swap. Qed.

Lemma adjacent_swaps_Permutation {A} (l l' : list A) :
  rtc adjacent_swap l l' → l ≡ₚ l'.
Proof.
  induction 1 as [|l1 l2 l3 H12 _ IH]; [done|].
  etrans; [by apply adjacent_swap_Permutation|done].
Qed.

Lemma index_cases (i : Z) (w : World) :
  (∃ p, 0 <= i < len w ∧ backends (servers w) !! Z.to_nat i = Some p
        ∧ index i w = (Ok p, w, []))
  ∨ index i w = (Panic (IndexOutOfRange i (length (backends (servers w)))), w, []).
Proof.
  destruct (decide (0 <= i < len w)) as [Hi|Hi].
  - left. destruct (lookup_lt_is_Some_2 (backends (servers w)) (Z.to_nat i))
      as [p Hp]; [unfold len in Hi; lia|].
    exists p. split; [done|]. split; [done|]. apply index_Some; [lia|done].
  - right. apply index_out. lia.
Qed.

Lemma assign_in_range (i : Z) (p : nat) (w : World) :
  0 <= i < len w →
  assign i p w
  = (Ok tt,
     mkWorld (heap w)
       (mkServers (<[Z.to_nat i := p]> (backends (servers w))) (current (servers w))),
     []).
Proof.
  intros Hi. unfold assign, len in *.
  rewrite (bind_pure _ _ w w (get_pure w)). cbv zeta.
  destruct (Z.leb_spec 0 i); [|lia].
  destruct (Z.ltb_spec i (Z.of_nat (length (backends (servers w))))); [|lia].
  done.
Qed.

(** The exchange of two neighbours, when both slots exist. *)
Lemma swap_in_range (idx : Z) (w : World) (x y : nat) :
  0 <= idx → idx + 1 < len w →
  backends (servers w) !! Z.to_nat idx = Some y →
  backends (servers w) !! S (Z.to_nat idx) = Some x →
  swap idx (idx + 1) w
  = (Ok tt,
     mkWorld (heap w)
       (mkServers (<[S (Z.to_nat idx) := y]> (<[Z.to_nat idx := x]> (backends (servers w))))
          (current (servers w))),
     []).
Proof.
  intros H0 Hl Hy Hx. unfold swap.
  assert (Z.to_nat (idx + 1) = S (Z.to_nat idx)) as Hs by lia.
  rewrite (bind_pure _ _ w x); [|apply index_Some; [lia|by rewrite Hs]].
  rewrite (bind_pure _ _ w y); [|by apply index_Some].
  rewrite (bind_Ok _ _ w tt _ [] (assign_in_range idx x w ltac:(lia))).
  rewrite assign_in_range; [by rewrite Hs|].
  unfold len in *. simpl. rewrite length_insert. lia.
Qed.

Lemma swap_reorders (idx : Z) : respects reorders (swap idx (idx + 1)).
Proof.
  intros w.
  destruct (index_cases (idx + 1) w) as [(x & Hr & Hx & Ex)|Ex];
    [|unfold swap; rewrite (bind_Panic _ _ _ _ _ _ Ex); apply comp_stutter].
  destruct (index_cases idx w) as [(y & Hr' & Hy & Ey)|Ey];
    [|unfold swap; rewrite (bind_pure _ _ _ _ Ex), (bind_Panic _ _ _ _ _ _ Ey);
      apply comp_stutter].
  assert (Z.to_nat (idx + 1) = S (Z.to_nat idx)) as Hs by lia.
  rewrite Hs in Hx.
  rewrite (swap_in_range idx w x y); [|lia..|done|done].
  split; [done|]. simpl. by apply rtc_once, adjacent_swap_insert.
Qed.

Lemma Tidy_loop_reorders (fuel : nat) (l idx : Z) :
  respects reorders (Tidy_loop fuel l idx).
Proof.
  revert idx. induction fuel as [|fuel IH]; intros idx; simpl;
    respects_steps_with ltac:(first [apply swap_reorders|apply IH]).
Qed.

Lemma Tidy_reorders (idx : Z) : respects reorders (Tidy idx).
Proof. unfold Tidy. respects_steps_with ltac:(apply Tidy_loop_reorders). Qed.

Global Instance keeps_current_composable : Composable keeps_current.
Proof.
  split; unfold keeps_current; [done|].
  intros w w1 w2 _ _ H1 H2. by rewrite H2.
Qed.

Lemma assign_keeps_current (i : Z) (p : nat) : respects keeps_current (assign i p).
Proof. unfold assign. respects_steps_with ltac:(by intros ?). Qed.

Lemma swap_keeps_current (i j : Z) : respects keeps_current (swap i j).
Proof. unfold swap. respects_steps_with ltac:(apply assign_keeps_current). Qed.

Lemma Tidy_keeps_current (idx : Z) : respects keeps_current (Tidy idx).
Proof.
  unfold Tidy. apply respects_bind; [apply _|apply respects_get; apply _|].
  intros w0. generalize (len w0) as l.
  generalize (S (Z.to_nat (idx + 1))) as fuel. intros fuel. revert idx.
  induction fuel as [|fuel IH]; intros idx l; simpl;
    respects_steps_with ltac:(first [apply swap_keeps_current|apply IH]).
Qed.

Lemma set_current_reorders (c : Z) :
  respects reorders (modify_servers (λ s, mkServers (backends s) c)).
Proof. by intros w. Qed.

Lemma GetNextBackend_reorders : respects reorders GetNextBackend.
Proof.
  unfold GetNextBackend.
  respects_steps_with ltac:(first [apply set_current_reorders|apply Tidy_reorders]).
Qed.

(** ** SetAlive and the loops that call it *)

Lemma SetAlive_Some (q : nat) (alive : bool) (w : World) (b : Backend) :
  heap w !! q = Some b →
  SetAlive q alive w
  = (Ok tt,
     mkWorld (<[q := mkBackend (URL b) alive (capacity b) (flow b)]> (heap w)) (servers w),
     [EvSetAlive q alive]).
Proof.
  intros Hb. unfold SetAlive. by rewrite (bind_pure _ _ _ _ (load_Some _ _ _ Hb)).
Qed.

Lemma SetAlive_None (q : nat) (alive : bool) (w : World) :
  heap w !! q = None → SetAlive q alive w = (Panic NilDereference, w, []).
Proof.
  intros Hb. unfold SetAlive. by rewrite (bind_Panic _ _ _ _ _ _ (load_None _ _ Hb)).
Qed.

Lemma SetAlive_flips_flags (q : nat) (alive : bool) :
  respects flips_flags (SetAlive q alive).
Proof.
  intros w. destruct (heap w !! q) as [b|] eqn:Hb.
  - rewrite (SetAlive_Some _ _ _ _ Hb). split; [done|]. intros p. simpl.
    destruct (decide (q = p)) as [->|Hne].
    + by rewrite lookup_insert_eq, Hb.
    + rewrite lookup_insert_ne by done. by destruct (heap w !! p).
  - rewrite (SetAlive_None _ _ _ Hb). apply comp_stutter.
Qed.

Lemma SetAlive_stays_dead (p q : nat) (alive : bool) :
  respects (stays_dead p) (SetAlive q alive).
Proof.
  intros w. destruct (heap w !! q) as [b|] eqn:Hb.
  - rewrite (SetAlive_Some _ _ _ _ Hb). intros Hd Hno.
    unfold dead_at, final in *. simpl in *.
    destruct (decide (q = p)) as [->|Hne].
    + rewrite lookup_insert_eq. destruct alive; [|done].
      exfalso. apply Hno. unfold effects. simpl. apply list_elem_of_singleton. done.
    + by rewrite lookup_insert_ne.
  - rewrite (SetAlive_None _ _ _ Hb). apply comp_stutter.
Qed.

Section FlagLoops.
Context (R : spec) `{!Composable R}.
Hypothesis SetAlive_R : ∀ q alive, respects R (SetAlive q alive).
Hypothesis dial_R : ∀ w u reachable, R w w [EvDial u reachable].

Lemma MarkBackendStatus_respects (u : string) (alive : bool) :
  respects R (MarkBackendStatus u alive).
Proof.
  unfold MarkBackendStatus, mark_member.
  respects_steps_with ltac:(apply SetAlive_R).
Qed.

Lemma HealthCheck_respects (dial : nat → string → bool) :
  respects R (HealthCheck dial).
Proof.
  unfold HealthCheck, check_member, isBackendAlive.
  respects_steps_with
    ltac:(first [apply SetAlive_R
                |apply respects_emit; [apply _|intros ?; apply dial_R]]).
Qed.

End FlagLoops.

(** C10: [Tidy] and [GetNextBackend] leave the heap of backends as it was
    and only exchange neighbouring members; [MarkBackendStatus] and
    [HealthCheck] leave the member list and the cursor as they were and
    change nothing but [Alive] flags: no backend is added, removed or
    replaced, and no address, capacity or flow changes.  [NextIndex] moves
    the cursor only.  This holds for the state left by a call that panics,
    too.  So the members stay the same multiset of backends. *)
Theorem pool_operations_keep_the_backends
    (w : World) (idx : Z) (u : string) (alive : bool) (dial : nat → string → bool) :
  let after_Tidy := final (Tidy idx w) in
  let after_Get := final (GetNextBackend w) in
  let after_Mark := final (MarkBackendStatus u alive w) in
  let after_Health := final (HealthCheck dial w) in
  let after_Next := final (NextIndex w) in
  (heap after_Tidy = heap w
   ∧ current (servers after_Tidy) = current (servers w)
   ∧ rtc adjacent_swap (backends (servers w)) (backends (servers after_Tidy))
   ∧ backends (servers after_Tidy) ≡ₚ backends (servers w))
  ∧ (heap after_Get = heap w
     ∧ rtc adjacent_swap (backends (servers w)) (backends (servers after_Get))
     ∧ backends (servers after_Get) ≡ₚ backends (servers w))
  ∧ (servers after_Mark = servers w ∧ same_but_alive (heap w) (heap after_Mark))
  ∧ (servers after_Health = servers w ∧ same_but_alive (heap w) (heap after_Health))
  ∧ (heap after_Next = heap w
     ∧ backends (servers after_Next) = backends (servers w)).
Proof.
  cbv zeta. repeat split.
  - apply (Tidy_reorders idx w).
  - apply (Tidy_keeps_current idx w).
  - apply (Tidy_reorders idx w).
  - symmetry. apply adjacent_swaps_Permutation, (Tidy_reorders idx w).
  - apply (GetNextBackend_reorders w).
  - apply (GetNextBackend_reorders w).
  - symmetry. apply adjacent_swaps_Permutation, (GetNextBackend_reorders w).
  - apply (MarkBackendStatus_respects flips_flags SetAlive_flips_flags u alive w).
  - apply (MarkBackendStatus_respects flips_flags SetAlive_flips_flags u alive w).
  - apply (HealthCheck_respects flips_flags SetAlive_flips_flags
             ltac:(by split; [|apply same_but_alive_refl]) dial w).
  - apply (HealthCheck_respects flips_flags SetAlive_flips_flags
             ltac:(by split; [|apply same_but_alive_refl]) dial w).
  - apply (NextIndex_keeps_heap w).
  - unfold NextIndex, bind, modify_servers, get, final. simpl.
    by destruct (wrap_uint64 _ =? 0).
Qed.

(** ** What GetNextBackend returns, when it returns *)

Lemma IsAlive_inv_Ok (p : nat) (w w' : World) (a : bool) t :
  IsAlive p w = (Ok a, w', t) →
  ∃ b, heap w !! p = Some b ∧ a = Alive b ∧ w' = w ∧ t = [].
Proof.
  unfold IsAlive, bind, load, ret. destruct (heap w !! p) as [b|]; [|done].
  intros [= <- <- <-]. by exists b.
Qed.

Lemma scan_alive_inv_Ok (fuel : nat) :
  ∀ (next n : Z) (w w' : World) (t : list event),
    scan_alive fuel next w = (Ok n, w', t) →
    w' = w ∧ t = [] ∧ next <= n ∧ 0 <= n
    ∧ (∃ p, backends (servers w) !! Z.to_nat n = Some p ∧ alive_at w p = true)
    ∧ (∀ j, next <= j < n →
         ∃ q, backends (servers w) !! Z.to_nat j = Some q ∧ dead_at w q = true).
Proof.
  induction fuel as [|fuel IH]; intros next n w w' t Hscan; simpl in Hscan; [done|].
  apply bind_inv_Ok in Hscan as (p & w1 & t1 & t2 & Hidx & Hk & ->).
  apply index_inv_Ok in Hidx as (Hr & Hp & -> & ->).
  apply bind_inv_Ok in Hk as (a & w2 & t3 & t4 & Ha & Hk & ->).
  apply IsAlive_inv_Ok in Ha as (b & Hb & -> & -> & ->).
  destruct (Alive b) eqn:Hab; simpl in Hk.
  - injection Hk as <- <- <-. repeat split; [lia..| |intros j Hj; lia].
    exists p. split; [done|]. unfold alive_at. by rewrite Hb.
  - apply IH in Hk as (-> & -> & Hle & H0 & Halive & Hdead).
    repeat split; [lia|done|done|].
    intros j Hj. destruct (decide (j = next)) as [->|Hne].
    + exists p. split; [done|]. unfold dead_at. by rewrite Hb, Hab.
    + apply Hdead. lia.
Qed.

(** When [GetNextBackend] returns, it returns the member at the lowest index
    whose backend is alive. *)
Lemma GetNextBackend_inv_Ok (w w' : World) (q : nat) (t : list event) :
  GetNextBackend w = (Ok q, w', t) →
  ∃ n, 0 <= n
       ∧ backends (servers w) !! Z.to_nat n = Some q
       ∧ alive_at w q = true
       ∧ (∀ j, 0 <= j < n →
            ∃ q', backends (servers w) !! Z.to_nat j = Some q' ∧ dead_at w q' = true).
Proof.
  unfold GetNextBackend. intros Hget.
  apply bind_inv_Ok in Hget as ([] & w1 & t1 & t2 & He & Hget & ->).
  injection He as <- <-.
  apply bind_inv_Ok in Hget as (w0 & w2 & t3 & t4 & Hg & Hget & ->).
  injection Hg as <- <- <-.
  apply bind_inv_Ok in Hget as (next & w3 & t5 & t6 & Hscan & Hget & ->).
  apply scan_alive_inv_Ok in Hscan as (-> & -> & _ & H0 & (p & Hp & Halive) & Hdead).
  apply bind_inv_Ok in Hget as ([] & w4 & t7 & t8 & Hcur & Hget & ->).
  assert (backends (servers w4) = backends (servers w)) as Hbs.
  { destruct (negb (next =? 0)); by injection Hcur as <- <-. }
  apply bind_inv_Ok in Hget as (r & w5 & t9 & t10 & Hidx & Hget & ->).
  apply index_inv_Ok in Hidx as (_ & Hr & -> & ->).
  apply bind_inv_Ok in Hget as ([] & w6 & t11 & t12 & _ & Hret & ->).
  injection Hret as <- <- <-.
  exists next. rewrite Hbs, Hp in Hr. injection Hr as <-. eauto.
Qed.

(** ** Dead backends stay dead *)

Lemma exec_stays_dead (p : nat) (o : op) : respects (stays_dead p) (exec o).
Proof.
  assert (∀ A (m : M A), respects keeps_heap m → respects (stays_dead p) m) as Hweak.
  { intros A m. apply respects_weaken, keeps_heap_stays_dead. }
  assert (∀ A (m : M A), respects reorders m → respects (stays_dead p) m) as Hweak'.
  { intros A m Hm. apply Hweak. revert Hm. apply respects_weaken, reorders_keeps_heap. }
  destruct o; simpl; apply respects_bind;
    try apply _; try (intros ?; apply respects_ret; apply _).
  - apply Hweak, AddBackend_keeps_heap.
  - apply Hweak, NextIndex_keeps_heap.
  - apply MarkBackendStatus_respects; [apply _|]. intros. apply SetAlive_stays_dead.
  - apply Hweak', GetNextBackend_reorders.
  - apply Hweak', Tidy_reorders.
  - apply HealthCheck_respects; [apply _| |by unfold stays_dead].
    intros. apply SetAlive_stays_dead.
  - apply SetAlive_stays_dead.
Qed.

Lemma exec_returns_alive (o : op) (w : World) (q : nat) :
  result (exec o w) = Ok (Some q) → alive_at w q = true.
Proof.
  destruct o; simpl; unfold result, bind;
    try (match goal with |- context [match ?m w with _ => _ end] =>
           destruct (m w) as [[[?| |] ?] ?] end; simpl; done).
  destruct (GetNextBackend w) as [[[r| |] w'] t] eqn:Hget; simpl; [|done..].
  intros [= ->]. by apply GetNextBackend_inv_Ok in Hget as (n & _ & _ & Ha & _).
Qed.

Lemma alive_not_dead (w : World) (p : nat) :
  alive_at w p = true → dead_at w p = true → False.
Proof.
  unfold alive_at, dead_at. destruct (heap w !! p) as [b|]; [|done].
  by destruct (Alive b).
Qed.

Lemma history_dead_not_selected (p : nat) (ops : list op) :
  ∀ (w w' : World) (t : list event) (sel : list nat),
    dead_at w p = true →
    history ops w = (w', t, sel) →
    EvSetAlive p true ∉ t →
    (p ∉ sel) ∧ dead_at w' p = true.
Proof.
  induction ops as [|o ops IH]; intros w w' t sel Hd Hh Hno; simpl in Hh.
  - injection Hh as <- <- <-. split; [apply not_elem_of_nil|done].
  - destruct (history ops (final (exec o w))) as [[w2 t2] sel2] eqn:Hrest.
    injection Hh as <- <- <-.
    assert (dead_at (final (exec o w)) p = true) as Hd1.
    { apply (exec_stays_dead p o w); [done|].
      intros Hin. apply Hno, elem_of_app. by left. }
    destruct (IH _ _ _ _ Hd1 Hrest) as [Hsel Hd2].
    { intros Hin. apply Hno, elem_of_app. by right. }
    split; [|done].
    destruct (result (exec o w)) as [[q|]| |] eqn:Hres; try done.
    apply not_elem_of_cons. split; [|done].
    intros ->. apply exec_returns_alive in Hres. by eapply alive_not_dead.
Qed.

(** ** MarkBackendStatus on a pool without nil members *)

Lemma surjective_pairing3 {A B C} (x : A * B * C) : x = (x.1.1, x.1.2, x.2).
Proof. by destruct x as [[? ?] ?]. Qed.

Lemma allocated_lookup (w : World) (bs : list nat) (p : nat) :
  allocated w bs = true → p ∈ bs → is_Some (heap w !! p).
Proof.
  unfold allocated. rewrite forallb_forall. intros Hall Hp.
  apply list_elem_of_In, Hall in Hp. by apply bool_decide_eq_true in Hp.
Qed.

Lemma allocated_same_but_alive (w w1 : World) (bs : list nat) :
  same_but_alive (heap w) (heap w1) → allocated w bs = true → allocated w1 bs = true.
Proof.
  unfold allocated. rewrite !forallb_forall. intros Hsame Hall p Hp.
  apply Hall, bool_decide_eq_true in Hp as [c Hc]. apply bool_decide_eq_true.
  specialize (Hsame p). rewrite Hc in Hsame. by destruct (heap w1 !! p).
Qed.

Global Instance keeps_flag_composable (p : nat) (a : bool) : Composable (keeps_flag p a).
Proof. split; unfold keeps_flag; [done|]. intros w w1 w2 _ _ H1 H2 H. auto. Qed.

Lemma SetAlive_keeps_flag (p q : nat) (a : bool) :
  respects (keeps_flag p a) (SetAlive q a).
Proof.
  intros w. destruct (heap w !! q) as [b|] eqn:Hb.
  - rewrite (SetAlive_Some _ _ _ _ Hb). unfold keeps_flag, final. simpl.
    destruct (decide (q = p)) as [->|Hne].
    + by rewrite lookup_insert_eq.
    + by rewrite lookup_insert_ne.
  - rewrite (SetAlive_None _ _ _ Hb). apply comp_stutter.
Qed.

Lemma range_mark_keeps_flag (p : nat) (u : string) (a : bool) (k : nat) (bs : list nat) :
  respects (keeps_flag p a) (range (mark_member u a) k bs).
Proof.
  unfold mark_member. respects_steps_with ltac:(apply SetAlive_keeps_flag).
Qed.

Lemma mark_member_spec (u : string) (a : bool) (k q : nat) (w : World) (c : Backend) :
  heap w !! q = Some c →
  ∃ w1 t1, mark_member u a k q w = (Ok tt, w1, t1)
           ∧ flips_flags w w1 t1
           ∧ (URL c = u → Alive <$> heap w1 !! q = Some a).
Proof.
  intros Hc. unfold mark_member.
  rewrite (bind_pure _ _ _ _ (load_Some _ _ _ Hc)).
  destruct (String.eqb_spec (URL c) u) as [Hu|Hu].
  - pose proof (SetAlive_flips_flags q a w) as Hflip.
    rewrite (SetAlive_Some _ _ _ _ Hc) in *.
    eexists _, _. split; [done|]. split; [done|].
    intros _. simpl. by rewrite lookup_insert_eq.
  - exists w, []. split; [done|]. split; [apply comp_stutter|done].
Qed.

Lemma range_mark_spec (u : string) (a : bool) (bs : list nat) :
  ∀ (k : nat) (w : World),
    allocated w bs = true →
    ∃ w' t, range (mark_member u a) k bs w = (Ok tt, w', t)
            ∧ flips_flags w w' t
            ∧ ∀ p c, p ∈ bs → heap w !! p = Some c → URL c = u →
                     Alive <$> heap w' !! p = Some a.
Proof.
  induction bs as [|q bs IH]; intros k w Hall.
  - exists w, []. split; [done|]. split; [apply comp_stutter|].
    intros p c Hp. by apply elem_of_nil in Hp.
  - pose proof Hall as Hall'. simpl in Hall'.
    apply andb_prop in Hall' as [Hq Hbs]. apply bool_decide_eq_true in Hq as [c0 Hc0].
    destruct (mark_member_spec u a k q w c0 Hc0) as (w1 & t1 & Hbody & Hflip1 & Hset).
    assert (allocated w1 bs = true) as Hall1
      by (eapply allocated_same_but_alive; [apply Hflip1|done]).
    destruct (IH (S k) w1 Hall1) as (w' & t2 & Hrest & Hflip2 & Hmarked).
    exists w', (t1 ++ t2). split; [|split].
    + cbn [range]. by rewrite (bind_Ok _ _ _ _ _ _ Hbody), Hrest.
    + by eapply comp_seq.
    + intros p c Hp Hc Hu. destruct (decide (p ∈ bs)) as [Hin|Hnin].
      * destruct Hflip1 as [_ Hsame]. specialize (Hsame p). rewrite Hc in Hsame.
        destruct (heap w1 !! p) as [c1|] eqn:Hc1; [|done].
        apply (Hmarked p c1); [done..|]. destruct Hsame as (-> & _). done.
      * apply elem_of_cons in Hp as [->|?]; [|done].
        rewrite Hc0 in Hc. injection Hc as ->.
        pose proof (range_mark_keeps_flag q u a (S k) bs w1) as Hkeep.
        rewrite Hrest in Hkeep. by apply Hkeep, Hset.
Qed.

Lemma range_mark_no_match (u : string) (a : bool) (bs : list nat) :
  ∀ (k : nat) (w : World),
    allocated w bs = true → has_address w u bs = false →
    range (mark_member u a) k bs w = (Ok tt, w, []).
Proof.
  induction bs as [|q bs IH]; intros k w Hall Hno; [done|].
  simpl in Hall, Hno. apply andb_prop in Hall as [Hq Hbs].
  apply bool_decide_eq_true in Hq as [c Hc]. rewrite Hc in Hno.
  apply orb_false_elim in Hno as [Hu Hrest].
  cbn [range]. rewrite (bind_pure _ _ w tt); [by apply IH|].
  unfold mark_member. by rewrite (bind_pure _ _ _ _ (load_Some _ _ _ Hc)), Hu.
Qed.

(** C8: on a pool whose members are all backends, [MarkBackendStatus(u,
    false)] returns and leaves every member with address [u] dead; from then
    on, through any sequence of pool operations in which [SetAlive(true)] is
    not called on that backend, [GetNextBackend] never returns it and it
    stays dead.  With an address that no member has, [MarkBackendStatus]
    returns without any effect on the state. *)
Theorem marked_dead_backend_is_not_selected
    (w : World) (u : string) (p : nat) (b : Backend) (ops : list op)
    (u' : string) (alive' : bool) :
  allocated w (backends (servers w)) = true →
  (p ∈ backends (servers w) → heap w !! p = Some b → URL b = u →
   result (MarkBackendStatus u false w) = Ok tt
   ∧ dead_at (final (MarkBackendStatus u false w)) p = true
   ∧ ∀ w' t sel,
       history ops (final (MarkBackendStatus u false w)) = (w', t, sel) →
       EvSetAlive p true ∉ t →
       (p ∉ sel) ∧ dead_at w' p = true)
  ∧ (has_address w u' (backends (servers w)) = false →
     MarkBackendStatus u' alive' w = (Ok tt, w, [])).
Proof.
  intros Hall. split.
  - intros Hp Hb Hu.
    destruct (range_mark_spec u false (backends (servers w)) 0%nat w Hall)
      as (w1 & t1 & Hrun & _ & Hmarked).
    assert (MarkBackendStatus u false w = (Ok tt, w1, t1)) as ->.
    { unfold MarkBackendStatus. by rewrite (bind_pure _ _ w w (get_pure w)). }
    assert (dead_at w1 p = true) as Hd.
    { specialize (Hmarked p b Hp Hb Hu). unfold dead_at.
      destruct (heap w1 !! p) as [c|]; [|done]. simpl in Hmarked.
      injection Hmarked as ->. done. }
    split; [done|]. split; [done|].
    intros w' t sel. by apply history_dead_not_selected.
  - intros Hno. unfold MarkBackendStatus.
    rewrite (bind_pure _ _ w w (get_pure w)). by apply range_mark_no_match.
Qed.

Lemma marked_dead_backend_is_not_selected_witness :
  let marked := MarkBackendStatus "a" false three_fresh in
  let later := history [OpGetNextBackend; OpTidy 0; OpGetNextBackend] (final marked) in
  allocated three_fresh (backends (servers three_fresh)) = true
  ∧ 1%nat ∈ backends (servers three_fresh)
  ∧ heap three_fresh !! 1%nat = Some (fresh "a")
  ∧ has_address three_fresh "d" (backends (servers three_fresh)) = false
  ∧ result marked = Ok tt
  ∧ dead_at (final marked) 1%nat = true
  ∧ later.2 = [2; 2]%nat
  ∧ (1%nat ∉ later.2)
  ∧ dead_at later.1.1 1%nat = true
  ∧ MarkBackendStatus "d" true three_fresh = (Ok tt, three_fresh, []).
Proof.
  cbv zeta.
  assert (allocated three_fresh (backends (servers three_fresh)) = true)
    as Hall by reflexivity.
  assert (1%nat ∈ backends (servers three_fresh)) as Hin by apply list_elem_of_here.
  assert (heap three_fresh !! 1%nat = Some (fresh "a")) as Hb by reflexivity.
  assert (has_address three_fresh "d" (backends (servers three_fresh)) = false)
    as Hno by reflexivity.
  destruct (marked_dead_backend_is_not_selected three_fresh "a" 1%nat (fresh "a")
              [OpGetNextBackend; OpTidy 0; OpGetNextBackend] "d" true Hall)
    as [Hmark Hnoop].
  destruct (Hmark Hin Hb eq_refl) as (Hres & Hdead & Hlater).
  destruct (Hlater _ _ _ (surjective_pairing3 _)) as [Hsel Hstill].
  { vm_compute. intros Hev.
    repeat (apply elem_of_cons in Hev as [Hev|Hev]; [discriminate|]).
    by apply elem_of_nil in Hev. }
  repeat split; done || by apply Hnoop.
Defined.

(** The scenario on a pool of two: once the first is marked dead the second
    is handed out. *)
Example mark_then_select :
  let w1 := final (MarkBackendStatus "a" false two_fresh) in
  effects (MarkBackendStatus "a" false two_fresh) = [EvSetAlive 1%nat false]
  ∧ result (GetNextBackend w1) = Panic (IndexOutOfRange 2 2)
  ∧ history [OpGetNextBackend] w1
    = (mkWorld (heap w1) (mkServers [1; 2]%nat 1), [EvGetNextBackend], []).
Proof. by vm_compute. Qed.

(** ** The order Tidy leaves behind *)

Lemma Free_inv_Ok (p : nat) (w w' : World) (f : Z) t :
  Free p w = (Ok f, w', t) →
  ∃ b, heap w !! p = Some b ∧ f = wrap_int (capacity b - wrap_int (flow b))
       ∧ w' = w ∧ t = [].
Proof.
  unfold Free, bind, load, ret. destruct (heap w !! p) as [b|]; [|done].
  intros [= <- <- <-]. by exists b.
Qed.

Lemma free_at_intro (w : World) (i : Z) (p : nat) (b : Backend) :
  0 <= i → backends (servers w) !! Z.to_nat i = Some p → heap w !! p = Some b →
  free_at w i = Some (wrap_int (capacity b - wrap_int (flow b))).
Proof.
  intros Hi Hp Hb. unfold free_at.
  destruct (Z.leb_spec 0 i); [|lia]. by rewrite Hp, Hb.
Qed.

Lemma free_at_nonneg (w : World) (i x : Z) : free_at w i = Some x → 0 <= i.
Proof. unfold free_at. by destruct (Z.leb_spec 0 i). Qed.

(** One turn of the loop of [Tidy] that does not panic: either the
    condition is false and the loop ends, or the two members are exchanged
    and the loop goes on one index lower. *)
Lemma Tidy_loop_turn (fuel : nat) (l idx : Z) (w w' : World) (t : list event) :
  Tidy_loop (S fuel) l idx w = (Ok tt, w', t) →
  ∃ x y, free_at w idx = Some x ∧ free_at w (idx + 1) = Some y
    ∧ ((w' = w ∧ t = [] ∧ (x <= y ∨ l <= idx + 1))
       ∨ (x > y ∧ idx + 1 < l
          ∧ ∃ w1, Tidy_loop fuel l (idx - 1) w1 = (Ok tt, w', t)
                  ∧ free_at w1 idx = Some y ∧ free_at w1 (idx + 1) = Some x)).
Proof.
  cbn [Tidy_loop]. intros Hrun.
  apply bind_inv_Ok in Hrun as (p & w1 & t1 & t2 & Hp & Hrun & ->).
  apply index_inv_Ok in Hp as (Hpr & Hp & -> & ->).
  apply bind_inv_Ok in Hrun as (fp & w2 & t3 & t4 & Hfp & Hrun & ->).
  apply Free_inv_Ok in Hfp as (bp & Hbp & -> & -> & ->).
  apply bind_inv_Ok in Hrun as (q & w3 & t5 & t6 & Hq & Hrun & ->).
  apply index_inv_Ok in Hq as (Hqr & Hq & -> & ->).
  apply bind_inv_Ok in Hrun as (fq & w4 & t7 & t8 & Hfq & Hrun & ->).
  apply Free_inv_Ok in Hfq as (bq & Hbq & -> & -> & ->).
  set (x := wrap_int (capacity bp - wrap_int (flow bp))) in *.
  set (y := wrap_int (capacity bq - wrap_int (flow bq))) in *.
  exists x, y.
  split; [by apply (free_at_intro w idx p bp); [lia|..]|].
  split; [by apply (free_at_intro w (idx + 1) q bq); [lia|..]|].
  assert (Z.to_nat (idx + 1) = S (Z.to_nat idx)) as Hs by lia. rewrite Hs in Hq.
  destruct (Z.gtb_spec x y) as [Hgt|Hle];
    [destruct (Z.ltb_spec (idx + 1) l) as [Hlt|Hge]|]; simpl in Hrun.
  - right. split; [lia|]. split; [done|].
    apply bind_inv_Ok in Hrun as ([] & w5 & t9 & t10 & Hswap & Hrun & ->).
    rewrite (swap_in_range idx w q p) in Hswap; [|lia..|done|done].
    injection Hswap as <- <-. eexists. split; [exact Hrun|].
    apply lookup_lt_Some in Hp as Hlen.
    split.
    + apply (free_at_intro _ idx q bq); [lia| |done]. simpl.
      rewrite list_lookup_insert_ne by lia.
      by apply list_lookup_insert_eq.
    + apply (free_at_intro _ (idx + 1) p bp); [lia| |done]. simpl.
      rewrite Hs. apply list_lookup_insert_eq. rewrite length_insert.
      by apply lookup_lt_Some in Hq.
  - left. injection Hrun as <- <-. repeat split; try done. lia.
  - left. injection Hrun as <- <-. repeat split; try done. lia.
Qed.

(** Once a pair has been exchanged, a strictly ascending pair is left
    somewhere in the span the loop went through. *)
Lemma Tidy_loop_leaves_ascending (fuel : nat) :
  ∀ (l idx : Z) (w w' : World) (t : list event) (x y : Z),
    free_at w (idx + 1) = Some x → free_at w (idx + 2) = Some y → x < y →
    Tidy_loop fuel l idx w = (Ok tt, w', t) →
    ∃ k x' y', -1 <= k <= idx + 1
               ∧ free_at w' k = Some x' ∧ free_at w' (k + 1) = Some y' ∧ x' < y'.
Proof.
  induction fuel as [|fuel IH]; intros l idx w w' t x y Hx Hy Hxy Hrun; [done|].
  apply Tidy_loop_turn in Hrun
    as (a & b & Ha & Hb & [(-> & -> & _)|(Hgt & Hlt & w1 & Hrun & Ha1 & Hb1)]).
  - exists (idx + 1), x, y. replace (idx + 1 + 1) with (idx + 2) by lia.
    apply free_at_nonneg in Ha. repeat split; try done; lia.
  - replace idx with (idx - 1 + 1) in Ha1 by lia.
    replace (idx + 1) with (idx - 1 + 2) in Hb1 by lia.
    destruct (IH l (idx - 1) w1 w' t b a Ha1 Hb1 ltac:(lia) Hrun)
      as (k & x' & y' & Hk & Hx' & Hy' & Hlt').
    exists k, x', y'. repeat split; try done; lia.
Qed.

(** C5: whenever [Tidy(idx)] exchanges the members at [idx] and [idx+1]
    (the earlier one has strictly more free capacity) and then terminates,
    the span it went through holds two neighbours of which the earlier has
    strictly LESS free capacity than the later: the loop moves members toward
    ascending free capacity, the opposite of the descending order of the
    pool. *)
Theorem Tidy_leaves_ascending_pair
    (w w' : World) (idx : Z) (t : list event) (x y : Z) :
  free_at w idx = Some x → free_at w (idx + 1) = Some y → x > y →
  Tidy idx w = (Ok tt, w', t) →
  ∃ k x' y', 0 <= k <= idx
             ∧ free_at w' k = Some x' ∧ free_at w' (k + 1) = Some y' ∧ x' < y'.
Proof.
  intros Hx Hy Hxy Hrun. unfold Tidy in Hrun.
  rewrite (bind_pure _ _ w w (get_pure w)) in Hrun.
  apply Tidy_loop_turn in Hrun
    as (a & b & Ha & Hb & [(-> & -> & Hstop)|(Hgt & Hlt & w1 & Hrun & Ha1 & Hb1)]).
  - rewrite Hx in Ha. rewrite Hy in Hb. injection Ha as <-. injection Hb as <-.
    destruct Hstop as [?|Hl]; [lia|].
    unfold free_at, len in *. destruct (Z.leb_spec 0 (idx + 1)); [|done].
    destruct (backends (servers w) !! Z.to_nat (idx + 1)) eqn:Hq; [|done].
    apply lookup_lt_Some in Hq. lia.
  - replace idx with (idx - 1 + 1) in Ha1 by lia.
    replace (idx + 1) with (idx - 1 + 2) in Hb1 by lia.
    destruct (Tidy_loop_leaves_ascending _ _ _ _ _ _ _ _ Ha1 Hb1 ltac:(lia) Hrun)
      as (k & x' & y' & Hk & Hx' & Hy' & Hlt').
    exists k, x', y'. apply free_at_nonneg in Hx' as Hk0.
    repeat split; try done; lia.
Qed.

Lemma Tidy_leaves_ascending_pair_witness :
  free_at frees_1_5_3 1 = Some 5
  ∧ free_at frees_1_5_3 2 = Some 3
  ∧ 5 > 3
  ∧ Tidy 1 frees_1_5_3 = (Ok tt, final (Tidy 1 frees_1_5_3), [])
  ∧ ∃ k x' y', 0 <= k <= 1
      ∧ free_at (final (Tidy 1 frees_1_5_3)) k = Some x'
      ∧ free_at (final (Tidy 1 frees_1_5_3)) (k + 1) = Some y' ∧ x' < y'.
Proof.
  split; [reflexivity|]. split; [reflexivity|]. split; [reflexivity|].
  split; [reflexivity|].
  apply (Tidy_leaves_ascending_pair frees_1_5_3 (final (Tidy 1 frees_1_5_3)) 1 [] 5 3);
    reflexivity.
Defined.

(** On the members with free capacities 1, 5, 3 a call at index 1 yields
    1, 3, 5. *)
Example Tidy_1_5_3 :
  result (Tidy 1 frees_1_5_3) = Ok tt
  ∧ backends (servers (final (Tidy 1 frees_1_5_3))) = [1; 3; 2]%nat
  ∧ free_at (final (Tidy 1 frees_1_5_3)) 1 = Some 3
  ∧ free_at (final (Tidy 1 frees_1_5_3)) 2 = Some 5.
Proof. by vm_compute. Qed.

(** ** AddBackend *)

(** [AddBackend] appends, then reads [s.backends[len(s.backends)]]. *)
Lemma AddBackend_eval (backend : nat) (w : World) :
  AddBackend backend w
  = (Panic (IndexOutOfRange (len w + 1) (S (length (backends (servers w))))),
     mkWorld (heap w)
       (mkServers (backends (servers w) ++ [backend]) (current (servers w))),
     []).
Proof.
  unfold AddBackend.
  set (w1 := mkWorld (heap w)
               (mkServers (backends (servers w) ++ [backend]) (current (servers w)))).
  rewrite (bind_Ok _ _ w tt w1 []); [|done].
  rewrite (bind_pure _ _ w1 w1 (get_pure w1)). cbn [AddBackend_loop].
  assert (len w1 = len w + 1) as Hlen
    by (unfold len, w1; simpl; rewrite length_app; simpl; lia).
  rewrite (bind_Panic _ _ w1 _ w1 [] (index_out (len w1) w1 ltac:(lia))).
  rewrite Hlen. unfold w1 at 1. cbn [servers backends].
  rewrite length_app. cbn [length]. by rewrite Nat.add_1_r.
Qed.

Lemma has_address_app (w : World) (u : string) (l1 l2 : list nat) :
  has_address w u (l1 ++ l2) = has_address w u l1 || has_address w u l2.
Proof. unfold has_address. apply existsb_app. Qed.

(** C7, as stated, fails: a backend whose address a member already has is
    appended all the same; the pool grows and holds the address twice. *)
Lemma AddBackend_accepts_duplicate :
  ¬ rejects_duplicates one_member_and_a_twin 2%nat.
Proof.
  intros Hclaim.
  destruct (Hclaim (fresh "a") eq_refl eq_refl) as [Hlen _].
  vm_compute in Hlen. lia.
Qed.

(** C7 (amended): [AddBackend] appends the backend to the member list
    whether or not some member already has its address: the heap is left as
    it was, a lookup of the added address among the members finds it, and the
    pool has exactly one member more. *)
Theorem AddBackend_appends (w : World) (backend : nat) (b : Backend) :
  heap w !! backend = Some b →
  backends (servers (final (AddBackend backend w))) = backends (servers w) ++ [backend]
  ∧ heap (final (AddBackend backend w)) = heap w
  ∧ has_address (final (AddBackend backend w)) (URL b)
      (backends (servers (final (AddBackend backend w)))) = true
  ∧ length (backends (servers (final (AddBackend backend w))))
    = S (length (backends (servers w))).
Proof.
  intros Hb. rewrite AddBackend_eval. unfold final. simpl.
  split; [done|]. split; [done|]. split.
  - rewrite has_address_app. simpl. rewrite Hb, String.eqb_refl.
    by rewrite orb_true_r.
  - rewrite length_app. simpl. lia.
Qed.

Lemma AddBackend_appends_witness :
  heap one_member_and_a_twin !! 2%nat = Some (fresh "a")
  ∧ backends (servers (final (AddBackend 2%nat one_member_and_a_twin))) = [1; 2]%nat
  ∧ heap (final (AddBackend 2%nat one_member_and_a_twin)) = heap one_member_and_a_twin
  ∧ has_address (final (AddBackend 2%nat one_member_and_a_twin)) "a"
      (backends (servers (final (AddBackend 2%nat one_member_and_a_twin)))) = true
  ∧ length (backends (servers (final (AddBackend 2%nat one_member_and_a_twin)))) = 2%nat.
Proof.
  split; [reflexivity|].
  apply (AddBackend_appends one_member_and_a_twin 2%nat (fresh "a")). reflexivity.
Defined.

(** The addresses after the duplicate was added. *)
Example AddBackend_twin_addresses :
  addresses (final (AddBackend 2%nat one_member_and_a_twin))
    (backends (servers (final (AddBackend 2%nat one_member_and_a_twin))))
  = ["a"; "a"]%string.
Proof. by vm_compute. Qed.

(** ** The request entry point *)

(** C9: [lb] answers a request whose attempts counter is above 3 with
    service-unavailable (503) at once: [GetNextBackend] is not called, no
    backend is dispatched to and the state is untouched.  A request that
    carries no attempts value counts as attempt 1. *)
Theorem lb_aborts_past_attempts_limit (w : World) (r : context) :
  (GetAttemptsFromContext r > 3 →
   lb r w = (Ok None, w, [EvRespond 503]))
  ∧ (Value r (KString "Attempts") = None → GetAttemptsFromContext r = 1).
Proof.
  split.
  - intros Hr. unfold lb. by destruct (Z.gtb_spec (GetAttemptsFromContext r) 3); [|lia].
  - intros Hr. unfold GetAttemptsFromContext. by rewrite Hr.
Qed.

Lemma lb_aborts_past_attempts_limit_witness :
  GetAttemptsFromContext [(KString "Attempts", AInt 4)] > 3
  ∧ Value [] (KString "Attempts") = None
  ∧ lb [(KString "Attempts", AInt 4)] two_fresh = (Ok None, two_fresh, [EvRespond 503])
  ∧ GetAttemptsFromContext [] = 1.
Proof.
  split; [reflexivity|]. split; [reflexivity|]. split.
  - apply (lb_aborts_past_attempts_limit two_fresh [(KString "Attempts", AInt 4)]).
    reflexivity.
  - apply (lb_aborts_past_attempts_limit two_fresh []). reflexivity.
Defined.

(** A request on its third attempt is still dispatched. *)
Example lb_third_attempt :
  lb [(KString "Attempts", AInt 3)] two_fresh
  = (Ok (Some (CallServeHTTP 1%nat [(KString "Attempts", AInt 3)])), two_fresh,
     [EvGetNextBackend]).
Proof. by vm_compute. Qed.

(** ** Effects of the selection *)

Global Instance silent_composable : Composable silent.
Proof. split; unfold silent; [done|]. by intros w w1 w2 t1 t2 -> ->. Qed.

Lemma modify_servers_silent (f : Servers → Servers) : respects silent (modify_servers f).
Proof. by intros w. Qed.

Lemma assign_silent (i : Z) (p : nat) : respects silent (assign i p).
Proof. unfold assign. respects_steps_with ltac:(apply modify_servers_silent). Qed.

Lemma swap_silent (i j : Z) : respects silent (swap i j).
Proof. unfold swap. respects_steps_with ltac:(apply assign_silent). Qed.

Lemma Tidy_loop_silent (fuel : nat) (l idx : Z) : respects silent (Tidy_loop fuel l idx).
Proof.
  revert idx. induction fuel as [|fuel IH]; intros idx; simpl;
    respects_steps_with ltac:(first [apply swap_silent|apply IH]).
Qed.

Lemma Tidy_silent (idx : Z) : respects silent (Tidy idx).
Proof. unfold Tidy. respects_steps_with ltac:(apply Tidy_loop_silent). Qed.

Lemma GetNextBackend_effects (w : World) :
  effects (GetNextBackend w) = [EvGetNextBackend].
Proof.
  unfold GetNextBackend.
  rewrite (bind_Ok _ _ w tt w [EvGetNextBackend]); [|done].
  unfold effects at 1. cbn [snd].
  match goal with |- _ ++ effects (?m w) = _ =>
    assert (respects silent m) as Hsilent end.
  { respects_steps_with ltac:(first [apply modify_servers_silent|apply Tidy_silent]). }
  by rewrite (Hsilent w).
Qed.

(** ** Retry and failover *)

Section ControllerFacts.
Variables Retry Attempts : ctxkey.

(** The context handed to the next try carries the retry count it was
    read with, whatever key [Retry] stands for. *)
Lemma retry_count_after_WithValue (r : context) :
  GetRetryFromContext (WithValue r Retry (AInt (GetRetryFromContext r)))
  = GetRetryFromContext r.
Proof.
  unfold GetRetryFromContext, WithValue. cbn [Value].
  by destruct (ctxkey_eqb Retry (KString "Retry")).
Qed.

Lemma DefaultErrorHandler_retry (serverUrl : string) (p : nat) (r : context) (w : World) :
  GetRetryFromContext r < 3 →
  DefaultErrorHandler Retry Attempts serverUrl p r w
  = (Ok (Some (CallServeHTTP p (WithValue r Retry (AInt (GetRetryFromContext r))))),
     w, [EvSleep 10]).
Proof.
  intros Hr. unfold DefaultErrorHandler.
  by destruct (Z.ltb_spec (GetRetryFromContext r) 3); [|lia].
Qed.

Lemma ServeHTTP_fails (n p : nat) (b : Backend) (r : context) (w : World) :
  heap w !! p = Some b → GetRetryFromContext r < 3 →
  ServeHTTP Retry Attempts always_fail n p r w
  = (Ok (Some (CallServeHTTP p (WithValue r Retry (AInt (GetRetryFromContext r))))),
     w, [EvDispatch p r; EvSleep 10]).
Proof.
  intros Hb Hr. unfold ServeHTTP.
  rewrite (bind_pure _ _ _ _ (load_Some _ _ _ Hb)).
  rewrite (bind_Ok _ _ w tt w [EvDispatch p r]); [|done].
  unfold always_fail. by rewrite DefaultErrorHandler_retry.
Qed.

(** Against a proxy that always fails, the handler of one backend is
    re-entered as long as the run is followed. *)
Lemma serve_retries_forever (p : nat) (b : Backend) (w : World) :
  heap w !! p = Some b →
  ∀ (fuel n : nat) (r : context),
    GetRetryFromContext r < 3 →
    result (serve Retry Attempts always_fail fuel n (CallServeHTTP p r) w) = OutOfFuel
    ∧ final (serve Retry Attempts always_fail fuel n (CallServeHTTP p r) w) = w
    ∧ dispatches (effects (serve Retry Attempts always_fail fuel n (CallServeHTTP p r) w))
      = fuel
    ∧ List.filter is_respond
        (effects (serve Retry Attempts always_fail fuel n (CallServeHTTP p r) w)) = [].
Proof.
  intros Hb. induction fuel as [|fuel IH]; intros n r Hr; [done|].
  cbn [serve]. rewrite (bind_Ok _ _ _ _ _ _ (ServeHTTP_fails n p b r w Hb Hr)).
  destruct (IH (S n) (WithValue r Retry (AInt (GetRetryFromContext r))))
    as (Hres & Hfin & Hcount & Hresp);
    [by rewrite retry_count_after_WithValue|].
  unfold result, final, effects in *. cbn [fst snd] in *.
  split; [done|]. split; [done|]. split.
  - unfold dispatches in *. simpl. by rewrite Hcount.
  - simpl. done.
Qed.

End ControllerFacts.

(** C4: on a failure with a retry count below 3 the handler waits 10ms and
    sends the request to the same backend again, but the context it sends
    carries the retry count it read, not that count plus one: the count is
    NOT incremented. *)
Theorem retry_does_not_increment
    (Retry Attempts : ctxkey) (serverUrl : string) (p : nat) (r : context) (w : World) :
  GetRetryFromContext r < 3 →
  ∃ r', DefaultErrorHandler Retry Attempts serverUrl p r w
        = (Ok (Some (CallServeHTTP p r')), w, [EvSleep 10])
        ∧ r' = WithValue r Retry (AInt (GetRetryFromContext r))
        ∧ GetRetryFromContext r' = GetRetryFromContext r.
Proof.
  intros Hr. eexists. split; [by apply DefaultErrorHandler_retry|].
  split; [done|]. apply retry_count_after_WithValue.
Qed.

Lemma retry_does_not_increment_witness :
  GetRetryFromContext [] < 3
  ∧ ∃ r', DefaultErrorHandler (KString "Retry") (KString "Attempts") "a" 1%nat [] two_fresh
          = (Ok (Some (CallServeHTTP 1%nat r')), two_fresh, [EvSleep 10])
          ∧ r' = [(KString "Retry", AInt 0)]
          ∧ GetRetryFromContext r' = 0.
Proof.
  split; [reflexivity|].
  apply (retry_does_not_increment (KString "Retry") (KString "Attempts")
           "a" 1%nat [] two_fresh).
  reflexivity.
Defined.

(** C3: a request that may still be dispatched and retried, on a pool from
    which [GetNextBackend] hands out a backend, against a proxy that always
    fails: however long the run is followed it has not ended, every step
    after the first was one more dispatch to that backend, and no response
    (service-unavailable or other) was written.  The number of dispatch
    attempts has no bound. *)
Theorem always_failing_request_is_retried_without_end
    (Retry Attempts : ctxkey) (w w1 : World) (p : nat) (t1 : list event)
    (r : context) (fuel : nat) :
  GetAttemptsFromContext r <= 3 →
  GetRetryFromContext r < 3 →
  GetNextBackend w = (Ok p, w1, t1) →
  result (serve Retry Attempts always_fail (S fuel) 0 (CallLb r) w) = OutOfFuel
  ∧ final (serve Retry Attempts always_fail (S fuel) 0 (CallLb r) w) = w1
  ∧ dispatches (effects (serve Retry Attempts always_fail (S fuel) 0 (CallLb r) w)) = fuel
  ∧ List.filter is_respond
      (effects (serve Retry Attempts always_fail (S fuel) 0 (CallLb r) w)) = [].
Proof.
  intros Ha Hr Hget.
  pose proof (GetNextBackend_effects w) as Ht1. rewrite Hget in Ht1.
  unfold effects in Ht1. cbn [snd] in Ht1. subst t1.
  pose proof (GetNextBackend_reorders w) as [Hheap _]. rewrite Hget in Hheap.
  unfold final in Hheap. cbn [fst snd] in Hheap.
  pose proof Hget as Hsel.
  apply GetNextBackend_inv_Ok in Hsel as (n & _ & _ & Halive & _).
  apply alive_at_Some in Halive as (b & Hb & _). rewrite <- Hheap in Hb.
  assert (lb r w = (Ok (Some (CallServeHTTP p r)), w1, [EvGetNextBackend])) as Hlb.
  { unfold lb. destruct (Z.gtb_spec (GetAttemptsFromContext r) 3); [lia|].
    rewrite (bind_Ok _ _ _ _ _ _ Hget).
    rewrite (bind_pure _ _ w1 w1 (get_pure w1)). by rewrite Hb. }
  cbn [serve]. rewrite (bind_Ok _ _ _ _ _ _ Hlb).
  destruct (serve_retries_forever Retry Attempts p b w1 Hb fuel 0%nat r Hr)
    as (Hres & Hfin & Hcount & Hresp).
  unfold result, final, effects in *. cbn [fst snd] in *.
  split; [done|]. split; [done|]. split; [|done].
  unfold dispatches in *. simpl. done.
Qed.

Lemma always_failing_request_is_retried_without_end_witness :
  GetAttemptsFromContext [] <= 3
  ∧ GetRetryFromContext [] < 3
  ∧ GetNextBackend two_fresh = (Ok 1%nat, two_fresh, [EvGetNextBackend])
  ∧ result (serve (KString "Retry") (KString "Attempts") always_fail 14 0 (CallLb [])
              two_fresh) = OutOfFuel
  ∧ final (serve (KString "Retry") (KString "Attempts") always_fail 14 0 (CallLb [])
             two_fresh) = two_fresh
  ∧ dispatches (effects (serve (KString "Retry") (KString "Attempts") always_fail 14 0
                           (CallLb []) two_fresh)) = 13%nat
  ∧ List.filter is_respond
      (effects (serve (KString "Retry") (KString "Attempts") always_fail 14 0
                  (CallLb []) two_fresh)) = [].
Proof.
  split; [vm_compute; discriminate|]. split; [reflexivity|]. split; [reflexivity|].
  apply (always_failing_request_is_retried_without_end
           (KString "Retry") (KString "Attempts") two_fresh two_fresh 1%nat
           [EvGetNextBackend] [] 13).
  - vm_compute; discriminate.
  - reflexivity.
  - reflexivity.
Defined.

(** ** The loops of the pool always end *)

Lemma terminates_bind {A B} (m : M A) (k : A → M B) :
  terminates m → (∀ a, terminates (k a)) → terminates (bind m k).
Proof.
  intros Hm Hk w. specialize (Hm w). unfold bind, result in *.
  destruct (m w) as [[[a| |] w1] t1]; simpl in *; [|done..].
  specialize (Hk a w1). by destruct (k a w1) as [[r w2] t2].
Qed.

Lemma terminates_index (i : Z) : terminates (index i).
Proof. intros w. by destruct (index_cases i w) as [(p & _ & _ & ->)| ->]. Qed.

Lemma terminates_load (p : nat) : terminates (load p).
Proof. intros w. unfold load. by destruct (heap w !! p). Qed.

Lemma terminates_assign (i : Z) (p : nat) : terminates (assign i p).
Proof.
  unfold assign. apply terminates_bind; [done|]. intros w. cbv zeta.
  by destruct (_ && _).
Qed.

Lemma terminates_swap (i j : Z) : terminates (swap i j).
Proof.
  unfold swap.
  apply terminates_bind; [apply terminates_index|intros x].
  apply terminates_bind; [apply terminates_index|intros y].
  apply terminates_bind; [apply terminates_assign|intros _].
  apply terminates_assign.
Qed.

Lemma terminates_Free (p : nat) : terminates (Free p).
Proof. apply terminates_bind; [apply terminates_load|done]. Qed.

Lemma terminates_IsAlive (p : nat) : terminates (IsAlive p).
Proof. apply terminates_bind; [apply terminates_load|done]. Qed.

Lemma terminates_SetAlive (p : nat) (a : bool) : terminates (SetAlive p a).
Proof.
  intros w. destruct (heap w !! p) as [b|] eqn:Hb.
  - by rewrite (SetAlive_Some _ _ _ _ Hb).
  - by rewrite (SetAlive_None _ _ _ Hb).
Qed.

Lemma terminates_range (body : nat → nat → M unit) (bs : list nat) :
  (∀ k p, terminates (body k p)) → ∀ k, terminates (range body k bs).
Proof.
  intros Hbody. induction bs as [|p bs IH]; intros k; simpl; [done|].
  apply terminates_bind; [apply Hbody|intros _; apply IH].
Qed.

(** The index goes down by one per turn and index -1 cannot be read. *)
Lemma Tidy_loop_terminates (fuel : nat) :
  ∀ (l idx : Z), (Z.to_nat (idx + 1) < fuel)%nat → terminates (Tidy_loop fuel l idx).
Proof.
  induction fuel as [|fuel IH]; intros l idx Hfuel w; [lia|].
  cbn [Tidy_loop].
  destruct (decide (idx < 0)) as [Hneg|Hpos].
  { by rewrite (bind_Panic _ _ _ _ _ _ (index_out idx w ltac:(lia))). }
  revert w.
  apply terminates_bind; [apply terminates_index|intros p].
  apply terminates_bind; [apply terminates_Free|intros fp].
  apply terminates_bind; [apply terminates_index|intros q].
  apply terminates_bind; [apply terminates_Free|intros fq].
  destruct (_ && _); [|done].
  apply terminates_bind; [apply terminates_swap|intros _].
  apply IH. lia.
Qed.

(** The scan goes up by one per turn and index [len] cannot be read. *)
Lemma scan_alive_terminates (fuel : nat) :
  ∀ (next : Z) (w : World),
    0 <= next <= len w → len w - next < Z.of_nat fuel →
    result (scan_alive fuel next w) ≠ OutOfFuel.
Proof.
  induction fuel as [|fuel IH]; intros next w H0 Hfuel; [lia|].
  - cbn [scan_alive].
    destruct (index_cases next w) as [(p & Hr & _ & Ep)|Ep];
      [|by rewrite (bind_Panic _ _ _ _ _ _ Ep)].
    rewrite (bind_pure _ _ _ _ Ep).
    destruct (heap w !! p) as [b|] eqn:Hb.
    + rewrite (bind_pure _ _ _ _ (IsAlive_Some _ _ _ Hb)).
      destruct (negb (Alive b)); [|done]. apply IH; lia.
    + unfold IsAlive. by rewrite (bind_Panic _ _ _ _ _ _
        (bind_Panic _ _ _ _ _ _ (load_None _ _ Hb))).
Qed.

Lemma Tidy_terminates (idx : Z) : terminates (Tidy idx).
Proof.
  unfold Tidy. apply terminates_bind; [done|intros w].
  apply Tidy_loop_terminates. lia.
Qed.

Lemma GetNextBackend_terminates : terminates GetNextBackend.
Proof.
  intros w. unfold GetNextBackend.
  rewrite (bind_Ok _ _ w tt w [EvGetNextBackend]); [|done].
  unfold result at 1. cbn [fst].
  rewrite (bind_pure _ _ w w (get_pure w)).
  pose proof (scan_alive_terminates (S (length (backends (servers w)))) 0 w
                ltac:(unfold len; lia) ltac:(unfold len; lia)) as Hscan.
  destruct (scan_alive (S (length (backends (servers w)))) 0 w)
    as [[[next| |] w1] t1] eqn:Escan; [| |done].
  - rewrite (bind_Ok _ _ _ _ _ _ Escan). unfold result at 1. cbn [fst].
    clear Hscan Escan. revert w1.
    apply terminates_bind; [by destruct (negb _)|intros _].
    apply terminates_bind; [apply terminates_index|intros r].
    apply terminates_bind; [apply Tidy_terminates|done].
  - by rewrite (bind_Panic _ _ _ _ _ _ Escan).
Qed.

(** Every pool operation ends, normally or with a panic: the budgets the
    loops are given are never used up. *)
Lemma pool_operations_terminate (o : op) : terminates (exec o).
Proof.
  destruct o; simpl; (apply terminates_bind; [|done]).
  - intros w. by rewrite AddBackend_eval.
  - unfold NextIndex. apply terminates_bind; [done|intros _].
    apply terminates_bind; [done|intros w]. by destruct (_ =? _).
  - unfold MarkBackendStatus. apply terminates_bind; [done|intros w].
    apply terminates_range. intros k p. unfold mark_member.
    apply terminates_bind; [apply terminates_load|intros b].
    destruct (_ =? _)%string; [apply terminates_SetAlive|done].
  - apply GetNextBackend_terminates.
  - apply Tidy_terminates.
  - unfold HealthCheck. apply terminates_bind; [done|intros w].
    apply terminates_range. intros k p. unfold check_member.
    apply terminates_bind; [apply terminates_load|intros b].
    apply terminates_bind; [|intros a; apply terminates_SetAlive].
    unfold isBackendAlive. apply terminates_bind; [done|intros _].
    by destruct (dial k (URL b)).
  - apply terminates_SetAlive.
Qed.

(** ** Tidy on a descending pool *)

Lemma free_at_inv (w : World) (i x : Z) :
  free_at w i = Some x →
  ∃ p b, 0 <= i ∧ backends (servers w) !! Z.to_nat i = Some p
         ∧ heap w !! p = Some b
         ∧ x = wrap_int (capacity b - wrap_int (flow b)).
Proof.
  unfold free_at. destruct (Z.leb_spec 0 i); [|done].
  destruct (backends (servers w) !! Z.to_nat i) as [p|] eqn:Hp; [|done].
  destruct (heap w !! p) as [b|] eqn:Hb; [|done].
  intros [= <-]. exists p, b. repeat split; done.
Qed.

(** When the member at [idx+1] has strictly less free capacity than every
    member before it, the loop carries it to the front and then reads
    [s.backends[-1]]. *)
Lemma Tidy_loop_to_front (fuel : nat) :
  ∀ (l idx : Z) (w : World) (f : Z),
    (Z.to_nat (idx + 1) < fuel)%nat → -1 <= idx → idx + 1 < l →
    free_at w (idx + 1) = Some f →
    (∀ j, 0 <= j <= idx → ∃ x, free_at w j = Some x ∧ x > f) →
    result (Tidy_loop fuel l idx w)
    = Panic (IndexOutOfRange (-1) (length (backends (servers w)))).
Proof.
  induction fuel as [|fuel IH]; intros l idx w f Hfuel Hidx Hl Hf Hbefore; [lia|].
  cbn [Tidy_loop].
  destruct (decide (idx = -1)) as [->|Hne].
  { by rewrite (bind_Panic _ _ _ _ _ _ (index_out (-1) w ltac:(lia))). }
  destruct (Hbefore idx ltac:(lia)) as (x & Hx & Hxf).
  apply free_at_inv in Hx as (p & bp & _ & Hp & Hbp & ->).
  apply free_at_inv in Hf as Hf'. destruct Hf' as (q & bq & _ & Hq & Hbq & Hfq).
  assert (Z.to_nat (idx + 1) = S (Z.to_nat idx)) as Hs by lia.
  rewrite (bind_pure _ _ _ _ (index_Some idx w p ltac:(lia) Hp)).
  rewrite (bind_pure _ _ _ _ (Free_Some _ _ _ Hbp)).
  rewrite (bind_pure _ _ _ _ (index_Some (idx + 1) w q ltac:(lia) Hq)).
  rewrite (bind_pure _ _ _ _ (Free_Some _ _ _ Hbq)).
  rewrite <- Hfq.
  destruct (Z.gtb_spec (wrap_int (capacity bp - wrap_int (flow bp))) f); [|lia].
  destruct (Z.ltb_spec (idx + 1) l); [|lia]. cbn [andb].
  rewrite Hs in Hq. apply lookup_lt_Some in Hq as Hlen.
  rewrite (bind_Ok _ _ _ _ _ _
             (swap_in_range idx w q p ltac:(lia) ltac:(unfold len; lia) Hp Hq)).
  unfold result at 1. cbn [fst].
  set (w1 := mkWorld _ _).
  rewrite (IH l (idx - 1) w1 f); [|lia|lia|lia| |].
  - unfold w1. cbn [servers backends]. by rewrite !length_insert.
  - replace (idx - 1 + 1) with idx by lia.
    rewrite Hfq. apply (free_at_intro w1 idx q bq); [lia| |done].
    unfold w1. cbn [servers backends].
    rewrite list_lookup_insert_ne by lia.
    apply list_lookup_insert_eq. lia.
  - intros j Hj. destruct (Hbefore j ltac:(lia)) as (y & Hy & Hyf).
    exists y. split; [|done]. rewrite <- Hy. unfold free_at, w1.
    cbn [servers backends heap].
    by rewrite !list_lookup_insert_ne by lia.
Qed.

(** On a pool in strictly descending order of free capacity, [Tidy] at any
    index but the last panics before the first member. *)
Lemma Tidy_front_out_of_range (w : World) (idx f : Z) :
  0 <= idx →
  free_at w (idx + 1) = Some f →
  (∀ j, 0 <= j <= idx → ∃ x, free_at w j = Some x ∧ x > f) →
  result (Tidy idx w) = Panic (IndexOutOfRange (-1) (length (backends (servers w)))).
Proof.
  intros Hidx Hf Hbefore. unfold Tidy.
  rewrite (bind_pure _ _ w w (get_pure w)).
  apply (Tidy_loop_to_front _ _ _ _ f); [lia|lia| |done|done].
  apply free_at_inv in Hf as (q & _ & _ & Hq & _). apply lookup_lt_Some in Hq.
  unfold len. lia.
Qed.

(** The pool of the end-to-end scenario, capacities 10 and 5, both alive and
    idle: the first selection exchanges the two members and panics. *)
Example GetNextBackend_10_5 :
  let w := pool_of [mkBackend "b1" true 10 0; mkBackend "b2" true 5 0] in
  result (GetNextBackend w) = Panic (IndexOutOfRange (-1) 2)
  ∧ backends (servers (final (GetNextBackend w))) = [2; 1]%nat.
Proof. by vm_compute. Qed.

(** * Further properties of the code *)

(** ** Backend methods *)

(** X1: on a backend, [SetAlive(a)] returns, the next [IsAlive()] answers
    [a], and nothing else changes: the address, capacity and flow of that
    backend, every other backend, and [servers] are as before. *)
Theorem SetAlive_then_IsAlive (w : World) (p : nat) (a : bool) (b : Backend) :
  heap w !! p = Some b →
  result (SetAlive p a w) = Ok tt
  ∧ IsAlive p (final (SetAlive p a w)) = (Ok a, final (SetAlive p a w), [])
  ∧ heap (final (SetAlive p a w)) !! p
    = Some (mkBackend (URL b) a (capacity b) (flow b))
  ∧ (∀ q, q ≠ p → heap (final (SetAlive p a w)) !! q = heap w !! q)
  ∧ servers (final (SetAlive p a w)) = servers w.
Proof.
  intros Hb. rewrite (SetAlive_Some _ _ _ _ Hb). unfold result, final. cbn [fst snd].
  split; [done|]. split; [|split; [|split; [|done]]].
  - rewrite (IsAlive_Some _ _ (mkBackend (URL b) a (capacity b) (flow b))); [done|].
    cbn [heap]. by rewrite lookup_insert_eq.
  - cbn [heap]. by rewrite lookup_insert_eq.
  - intros q Hq. cbn [heap]. by rewrite lookup_insert_ne.
Qed.

Lemma SetAlive_then_IsAlive_witness :
  heap one_alive !! 1%nat = Some (fresh "a")
  ∧ result (SetAlive 1%nat false one_alive) = Ok tt
  ∧ IsAlive 1%nat (final (SetAlive 1%nat false one_alive))
    = (Ok false, final (SetAlive 1%nat false one_alive), [])
  ∧ heap (final (SetAlive 1%nat false one_alive)) !! 1%nat
    = Some (mkBackend "a" false 0 0)
  ∧ (∀ q, q ≠ 1%nat →
       heap (final (SetAlive 1%nat false one_alive)) !! q = heap one_alive !! q)
  ∧ servers (final (SetAlive 1%nat false one_alive)) = servers one_alive.
Proof.
  split; [reflexivity|].
  apply (SetAlive_then_IsAlive one_alive 1%nat false (fresh "a")). reflexivity.
Defined.

(** X2: when the flow is below 2^63 and [capacity - flow] fits an [int],
    [Free()] returns exactly [capacity - flow] and leaves the state alone; it
    is negative exactly when the flow exceeds the capacity. *)
Theorem Free_is_capacity_minus_flow (w : World) (p : nat) (b : Backend) :
  heap w !! p = Some b →
  0 <= flow b < int_half →
  - int_half <= capacity b - flow b < int_half →
  Free p w = (Ok (capacity b - flow b), w, [])
  ∧ (capacity b - flow b < 0 ↔ flow b > capacity b).
Proof.
  intros Hb Hflow Hdiff. rewrite (Free_Some _ _ _ Hb).
  rewrite (wrap_int_small (flow b)) by (unfold int_half in *; lia).
  rewrite wrap_int_small by done. split; [done|lia].
Qed.

Lemma Free_is_capacity_minus_flow_witness :
  heap frees_1_5_3 !! 2%nat = Some (mkBackend "b" true 5 0)
  ∧ 0 <= 0 < int_half
  ∧ - int_half <= 5 - 0 < int_half
  ∧ Free 2%nat frees_1_5_3 = (Ok (5 - 0), frees_1_5_3, [])
  ∧ (5 - 0 < 0 ↔ 0 > 5).
Proof.
  split; [reflexivity|]. split; [by vm_compute|]. split; [by vm_compute|].
  apply (Free_is_capacity_minus_flow frees_1_5_3 2%nat (mkBackend "b" true 5 0));
    [reflexivity|by vm_compute|by vm_compute].
Defined.



(** X4: called through a nil pointer, each of [SetAlive], [IsAlive] and
    [Free] panics with a nil dereference and changes nothing. *)
Theorem Backend_methods_on_nil (w : World) (p : nat) (a : bool) :
  heap w !! p = None →
  SetAlive p a w = (Panic NilDereference, w, [])
  ∧ IsAlive p w = (Panic NilDereference, w, [])
  ∧ Free p w = (Panic NilDereference, w, []).
Proof.
  intros Hp. split; [by apply SetAlive_None|].
  unfold IsAlive, Free. by rewrite !(bind_Panic _ _ _ _ _ _ (load_None _ _ Hp)).
Qed.

Lemma Backend_methods_on_nil_witness :
  heap empty_pool !! 7%nat = None
  ∧ SetAlive 7%nat true empty_pool = (Panic NilDereference, empty_pool, [])
  ∧ IsAlive 7%nat empty_pool = (Panic NilDereference, empty_pool, [])
  ∧ Free 7%nat empty_pool = (Panic NilDereference, empty_pool, []).
Proof.
  split; [reflexivity|].
  apply (Backend_methods_on_nil empty_pool 7%nat true). reflexivity.
Defined.

(** ** NextIndex *)

Lemma NextIndex_eval (w : World) :
  NextIndex w
  = (if wrap_uint64 (len w) =? 0 then Panic DivideByZero
     else Ok (wrap_int (wrap_uint64 (current (servers w) + 1) mod wrap_uint64 (len w))),
     mkWorld (heap w)
       (mkServers (backends (servers w)) (wrap_uint64 (current (servers w) + 1))),
     []).
Proof.
  unfold NextIndex.
  set (w1 := mkWorld (heap w)
               (mkServers (backends (servers w)) (wrap_uint64 (current (servers w) + 1)))).
  rewrite (bind_Ok _ _ w tt w1 []); [|done].
  rewrite (bind_pure _ _ w1 w1 (get_pure w1)).
  change (len w1) with (len w). change (current (servers w1))
    with (wrap_uint64 (current (servers w) + 1)).
  by destruct (wrap_uint64 (len w) =? 0).
Qed.

(** X5: on the empty pool [NextIndex] panics with a division by zero, and it
    has advanced the cursor before it does. *)
Theorem NextIndex_empty_pool (w : World) :
  backends (servers w) = [] →
  NextIndex w
  = (Panic DivideByZero,
     mkWorld (heap w) (mkServers [] (wrap_uint64 (current (servers w) + 1))),
     []).
Proof.
  intros Hbs. rewrite NextIndex_eval. unfold len. rewrite Hbs. done.
Qed.

Lemma NextIndex_empty_pool_witness :
  backends (servers empty_pool) = []
  ∧ NextIndex empty_pool = (Panic DivideByZero, mkWorld ∅ (mkServers [] 1), []).
Proof.
  split; [reflexivity|]. apply (NextIndex_empty_pool empty_pool). reflexivity.
Defined.

Lemma wrap_uint64_len (w : World) : len w < int_half → wrap_uint64 (len w) = len w.
Proof.
  intros Hlen. apply wrap_uint64_small.
  unfold len, int_half, int_modulus in *. lia.
Qed.

Lemma NextIndex_nonempty (w : World) :
  0 < len w < int_half →
  NextIndex w
  = (Ok (wrap_uint64 (current (servers w) + 1) mod len w),
     mkWorld (heap w)
       (mkServers (backends (servers w)) (wrap_uint64 (current (servers w) + 1))),
     []).
Proof.
  intros Hlen. rewrite NextIndex_eval, wrap_uint64_len by lia.
  destruct (Z.eqb_spec (len w) 0); [lia|].
  rewrite wrap_int_small; [done|].
  pose proof (Z.mod_pos_bound (wrap_uint64 (current (servers w) + 1)) (len w)
                ltac:(lia)).
  unfold int_half in *. lia.
Qed.

(** X6: on a non-empty pool [NextIndex] returns a valid index of the member
    list, namely the advanced cursor modulo the number of members; the
    cursor goes up by one modulo 2^64 and nothing else changes. *)
Theorem NextIndex_returns_valid_index (w : World) :
  0 < len w < int_half →
  ∃ i, NextIndex w
       = (Ok i,
          mkWorld (heap w)
            (mkServers (backends (servers w)) ((current (servers w) + 1) mod 2 ^ 64)),
          [])
       ∧ i = ((current (servers w) + 1) mod 2 ^ 64) mod len w
       ∧ 0 <= i < len w
       ∧ is_Some (backends (servers w) !! Z.to_nat i).
Proof.
  intros Hlen. rewrite NextIndex_nonempty by done.
  eexists. split; [done|]. split; [done|].
  pose proof (Z.mod_pos_bound ((current (servers w) + 1) mod 2 ^ 64) (len w)
                ltac:(lia)) as Hi.
  split; [done|]. apply lookup_lt_is_Some. unfold len in *. unfold wrap_uint64, int_modulus. lia.
Qed.

Lemma NextIndex_returns_valid_index_witness :
  0 < len three_fresh < int_half
  ∧ ∃ i, NextIndex three_fresh
         = (Ok i, mkWorld (heap three_fresh) (mkServers [1; 2; 3]%nat 1), [])
         ∧ i = 1 ∧ 0 <= i < 3
         ∧ is_Some (backends (servers three_fresh) !! Z.to_nat i).
Proof.
  split; [by vm_compute|].
  apply (NextIndex_returns_valid_index three_fresh). by vm_compute.
Defined.

(** X7: as long as the cursor does not wrap around 2^64, two calls of
    [NextIndex] in a row return neighbouring indices of the rotation: the
    second is the first plus one, modulo the number of members. *)
Theorem NextIndex_rotates (w : World) :
  0 < len w < int_half →
  0 <= current (servers w) → current (servers w) + 2 < int_modulus →
  ∃ i j, result (NextIndex w) = Ok i
         ∧ result (NextIndex (final (NextIndex w))) = Ok j
         ∧ j = (i + 1) mod len w.
Proof.
  intros Hlen Hc0 Hc2. rewrite (NextIndex_nonempty w Hlen).
  unfold final, result. cbn [fst snd].
  rewrite NextIndex_nonempty by done.
  cbn [fst snd servers current].
  change (len (mkWorld _ _)) with (len w).
  eexists _, _. split; [done|]. split; [done|].
  rewrite (wrap_uint64_small (current (servers w) + 1)) by lia.
  rewrite wrap_uint64_small by lia.
  rewrite Z.add_mod_idemp_l by lia. done.
Qed.

Lemma NextIndex_rotates_witness :
  0 < len three_fresh < int_half
  ∧ 0 <= current (servers three_fresh)
  ∧ current (servers three_fresh) + 2 < int_modulus
  ∧ ∃ i j, result (NextIndex three_fresh) = Ok i
           ∧ result (NextIndex (final (NextIndex three_fresh))) = Ok j
           ∧ j = (i + 1) mod 3.
Proof.
  split; [by vm_compute|]. split; [by vm_compute|]. split; [by vm_compute|].
  apply (NextIndex_rotates three_fresh); by vm_compute.
Defined.

(** At the top of the range the cursor wraps to zero and the rotation
    restarts from index 0, whatever the index before was. *)
Example NextIndex_cursor_wraps :
  let w := mkWorld (heap three_fresh) (mkServers [1; 2; 3]%nat (int_modulus - 1)) in
  result (NextIndex w) = Ok 0
  ∧ current (servers (final (NextIndex w))) = 0.
Proof. by vm_compute. Qed.

(** ** The health check *)

Lemma isBackendAlive_eval (dial : string → bool) (u : string) (w : World) :
  isBackendAlive dial u w
  = (if dial u then (Ok true, w, [EvDial u true])
     else (Panic NilDereference, w, [EvDial u false])).
Proof.
  unfold isBackendAlive, bind, emit, ret, throw. cbv zeta. by destruct (dial u).
Qed.

(** X8: [isBackendAlive] never returns false: it returns true when the dial
    succeeds and panics with a nil dereference (the deferred [conn.Close()]
    on the nil connection) when the dial fails; it changes nothing. *)
Theorem isBackendAlive_never_false (dial : string → bool) (u : string) (w : World) :
  isBackendAlive dial u w
  = (if dial u then (Ok true, w, [EvDial u true])
     else (Panic NilDereference, w, [EvDial u false]))
  ∧ result (isBackendAlive dial u w) ≠ Ok false.
Proof.
  rewrite isBackendAlive_eval. unfold result. by destruct (dial u).
Qed.

Lemma check_member_eval (dial : nat → string → bool) (k p : nat) (w : World) (b : Backend) :
  heap w !! p = Some b →
  check_member dial k p w
  = (if dial k (URL b)
     then (Ok tt,
           mkWorld (<[p := mkBackend (URL b) true (capacity b) (flow b)]> (heap w))
             (servers w),
           [EvDial (URL b) true; EvSetAlive p true])
     else (Panic NilDereference, w, [EvDial (URL b) false])).
Proof.
  intros Hb. unfold check_member.
  rewrite (bind_pure _ _ _ _ (load_Some _ _ _ Hb)).
  pose proof (isBackendAlive_eval (dial k) (URL b) w) as Heval.
  destruct (dial k (URL b)).
  - rewrite (bind_Ok _ _ _ _ _ _ Heval). by rewrite (SetAlive_Some _ _ _ _ Hb).
  - by rewrite (bind_Panic _ _ _ _ _ _ Heval).
Qed.

Lemma check_member_nil (dial : nat → string → bool) (k p : nat) (w : World) :
  heap w !! p = None → check_member dial k p w = (Panic NilDereference, w, []).
Proof.
  intros Hp. unfold check_member. by rewrite (bind_Panic _ _ _ _ _ _ (load_None _ _ Hp)).
Qed.

Global Instance never_sets_dead_composable : Composable never_sets_dead.
Proof.
  split; unfold never_sets_dead.
  - intros _ q. apply not_elem_of_nil.
  - intros _ _ _ t1 t2 H1 H2 q Hin. apply elem_of_app in Hin as [Hin|Hin];
      [by apply (H1 q)|by apply (H2 q)].
Qed.

Lemma check_member_flips_flags (dial : nat → string → bool) (k p : nat) :
  respects flips_flags (check_member dial k p).
Proof.
  intros w. destruct (heap w !! p) as [b|] eqn:Hb.
  - pose proof (SetAlive_flips_flags p true w) as Hset.
    rewrite (SetAlive_Some _ _ _ _ Hb) in Hset.
    rewrite (check_member_eval _ _ _ _ _ Hb).
    destruct (dial k (URL b)); [exact Hset|].
    split; [done|apply same_but_alive_refl].
  - rewrite (check_member_nil _ _ _ _ Hb). apply comp_stutter.
Qed.

Lemma check_member_keeps_alive (q : nat) (dial : nat → string → bool) (k p : nat) :
  respects (keeps_flag q true) (check_member dial k p).
Proof.
  intros w. destruct (heap w !! p) as [b|] eqn:Hb.
  - pose proof (SetAlive_keeps_flag q p true w) as Hset.
    rewrite (SetAlive_Some _ _ _ _ Hb) in Hset.
    rewrite (check_member_eval _ _ _ _ _ Hb).
    destruct (dial k (URL b)); [exact Hset|by unfold keeps_flag].
  - rewrite (check_member_nil _ _ _ _ Hb). apply comp_stutter.
Qed.


Lemma HealthCheck_range_respects (R : spec) `{!Composable R}
    (dial : nat → string → bool) :
  (∀ k p, respects R (check_member dial k p)) → respects R (HealthCheck dial).
Proof.
  intros Hbody. unfold HealthCheck.
  apply respects_bind; [apply _|apply respects_get; apply _|intros w].
  apply respects_range; [apply _|done].
Qed.

Lemma alive_at_flag (w : World) (p : nat) :
  alive_at w p = true ↔ Alive <$> heap w !! p = Some true.
Proof.
  unfold alive_at. destruct (heap w !! p) as [b|]; simpl; [|done].
  split; [by intros ->|by intros [= ->]].
Qed.



Lemma all_reachable_same_but_alive (dial : nat → string → bool) (w w1 : World)
    (bs : list nat) :
  same_but_alive (heap w) (heap w1) →
  ∀ k, all_reachable dial w1 k bs = all_reachable dial w k bs.
Proof.
  intros Hsame. induction bs as [|p bs IH]; intros k; [done|].
  simpl. rewrite IH. f_equal. specialize (Hsame p).
  destruct (heap w !! p) as [b|], (heap w1 !! p) as [b1|]; try done.
  by destruct Hsame as (-> & _).
Qed.

Lemma range_check_spec (dial : nat → string → bool) (bs : list nat) :
  ∀ (k : nat) (w : World),
    allocated w bs = true →
    (all_reachable dial w k bs = true →
     ∃ w' t, range (check_member dial) k bs w = (Ok tt, w', t)
             ∧ flips_flags w w' t
             ∧ ∀ p, p ∈ bs → alive_at w' p = true)
    ∧ (all_reachable dial w k bs = false →
       result (range (check_member dial) k bs w) = Panic NilDereference).
Proof.
  induction bs as [|p bs IH]; intros k w Hall.
  - split; [|done]. intros _. exists w, []. split; [done|].
    split; [apply comp_stutter|]. intros p Hp. by apply elem_of_nil in Hp.
  - pose proof Hall as Hall'. simpl in Hall'.
    apply andb_prop in Hall' as [Hp Hbs]. apply bool_decide_eq_true in Hp as [b Hb].
    cbn [all_reachable range]. rewrite Hb.
    pose proof (check_member_eval dial k p w b Hb) as Heval.
    pose proof (check_member_flips_flags dial k p w) as Hflip1.
    destruct (dial k (URL b)) eqn:Hdial; cbn [andb].
    2:{ split; [done|]. intros _. by rewrite (bind_Panic _ _ _ _ _ _ Heval). }
    rewrite Heval in Hflip1. unfold final, effects in Hflip1. cbn [fst snd] in Hflip1.
    set (w1 := mkWorld _ _) in *.
    assert (allocated w1 bs = true) as Hall1
      by (eapply allocated_same_but_alive; [apply Hflip1|done]).
    rewrite <- (all_reachable_same_but_alive dial w w1 bs (proj2 Hflip1) (S k)).
    destruct (IH (S k) w1 Hall1) as [Hyes Hno].
    rewrite (bind_Ok _ _ _ _ _ _ Heval). split.
    + intros Hrest. destruct (Hyes Hrest) as (w' & t2 & Hrun & Hflip2 & Halive).
      rewrite Hrun. eexists _, _. split; [done|]. split.
      * eapply comp_seq; [exact Hflip1|exact Hflip2].
      * intros q Hq. destruct (decide (q ∈ bs)) as [Hin|Hnin]; [by apply Halive|].
        apply elem_of_cons in Hq as [->|?]; [|done].
        pose proof (respects_range (keeps_flag p true) (check_member dial) bs
                      (check_member_keeps_alive p dial) (S k) w1) as Hkeep.
        rewrite Hrun in Hkeep. apply alive_at_flag, Hkeep.
        unfold w1. cbn [heap]. by rewrite lookup_insert_eq.
    + intros Hrest. unfold result at 1. cbn [fst]. by apply Hno.
Qed.

(** X10: on a pool without nil members [HealthCheck] returns normally
    exactly when every probe of the sweep succeeds, and then every member is
    alive; as soon as one probe fails the sweep panics with a nil
    dereference. *)
Theorem HealthCheck_returns_iff_all_reachable (dial : nat → string → bool) (w : World) :
  allocated w (backends (servers w)) = true →
  (result (HealthCheck dial w) = Ok tt
   ↔ all_reachable dial w 0 (backends (servers w)) = true)
  ∧ (all_reachable dial w 0 (backends (servers w)) = true →
     forallb (alive_at (final (HealthCheck dial w))) (backends (servers w)) = true)
  ∧ (all_reachable dial w 0 (backends (servers w)) = false →
     result (HealthCheck dial w) = Panic NilDereference).
Proof.
  intros Hall. unfold HealthCheck. rewrite (bind_pure _ _ w w (get_pure w)).
  destruct (range_check_spec dial (backends (servers w)) 0%nat w Hall) as [Hyes Hno].
  split; [|split].
  - split.
    + intros Hres. destruct (all_reachable _ _ _ _) eqn:Hr; [done|].
      rewrite (Hno eq_refl) in Hres. done.
    + intros Hr. destruct (Hyes Hr) as (w' & t & -> & _). done.
  - intros Hr. destruct (Hyes Hr) as (w' & t & -> & _ & Halive).
    apply forallb_forall. intros p Hp. apply Halive. by apply list_elem_of_In.
  - done.
Qed.

Lemma HealthCheck_returns_iff_all_reachable_witness :
  let dial := λ (k : nat) (_ : string), Nat.eqb k 0 in
  allocated two_fresh (backends (servers two_fresh)) = true
  ∧ all_reachable dial two_fresh 0 (backends (servers two_fresh)) = false
  ∧ all_reachable (λ _ _, true) one_dead 0 (backends (servers one_dead)) = true
  ∧ result (HealthCheck dial two_fresh) = Panic NilDereference
  ∧ result (HealthCheck (λ _ _, true) one_dead) = Ok tt
  ∧ forallb (alive_at (final (HealthCheck (λ _ _, true) one_dead)))
      (backends (servers one_dead)) = true.
Proof.
  cbv zeta. split; [reflexivity|]. split; [reflexivity|]. split; [reflexivity|].
  split; [|split].
  - apply (HealthCheck_returns_iff_all_reachable
             (λ (k : nat) (_ : string), Nat.eqb k 0) two_fresh); reflexivity.
  - apply (HealthCheck_returns_iff_all_reachable (λ _ _, true) one_dead); reflexivity.
  - apply (HealthCheck_returns_iff_all_reachable (λ _ _, true) one_dead); reflexivity.
Defined.

(** ** MarkBackendStatus, in full *)

Lemma mark_member_eval (u : string) (a : bool) (k p : nat) (w : World) (c : Backend) :
  heap w !! p = Some c →
  mark_member u a k p w
  = (if String.eqb (URL c) u
     then (Ok tt,
           mkWorld (<[p := mkBackend (URL c) a (capacity c) (flow c)]> (heap w))
             (servers w),
           [EvSetAlive p a])
     else (Ok tt, w, [])).
Proof.
  intros Hc. unfold mark_member. rewrite (bind_pure _ _ _ _ (load_Some _ _ _ Hc)).
  destruct (String.eqb (URL c) u); [by apply SetAlive_Some|done].
Qed.

Lemma range_mark_heap (u : string) (a : bool) (bs : list nat) :
  ∀ (k : nat) (w : World),
    allocated w bs = true →
    ∃ w' t, range (mark_member u a) k bs w = (Ok tt, w', t)
            ∧ servers w' = servers w
            ∧ ∀ q, heap w' !! q = marked u a bs (heap w) q.
Proof.
  induction bs as [|p bs IH]; intros k w Hall.
  - exists w, []. split; [done|]. split; [done|]. intros q. unfold marked.
    destruct (heap w !! q); [|done].
    by rewrite (bool_decide_eq_false_2 (q ∈ [])) by apply not_elem_of_nil.
  - pose proof Hall as Hall'. simpl in Hall'.
    apply andb_prop in Hall' as [Hp Hbs]. apply bool_decide_eq_true in Hp as [c Hc].
    pose proof (mark_member_eval u a k p w c Hc) as Heval.
    destruct (mark_member_spec u a k p w c Hc) as (w1 & t1 & Hbody & Hflip1 & _).
    assert (allocated w1 bs = true) as Hall1
      by (eapply allocated_same_but_alive; [apply Hflip1|done]).
    destruct (IH (S k) w1 Hall1) as (w' & t2 & Hrest & Hsrv & Hheap).
    exists w', (t1 ++ t2). split; [|split].
    + cbn [range]. by rewrite (bind_Ok _ _ _ _ _ _ Hbody), Hrest.
    + rewrite Hsrv. apply Hflip1.
    + intros q. rewrite Hheap. rewrite Hbody in Heval. unfold marked.
      destruct (decide (q = p)) as [->|Hne].
      * rewrite Hc. rewrite (bool_decide_eq_true_2 (p ∈ p :: bs)) by apply list_elem_of_here.
        cbn [andb].
        destruct (String.eqb (URL c) u) eqn:Hu; injection Heval as -> _.
        -- cbn [heap]. rewrite lookup_insert_eq. cbn [URL capacity flow]. rewrite Hu.
           by destruct (bool_decide (p ∈ bs)).
        -- rewrite Hc, Hu. by rewrite andb_false_r.
      * assert (bool_decide (q ∈ p :: bs) = bool_decide (q ∈ bs)) as ->.
        { apply bool_decide_ext. rewrite elem_of_cons. split; [by intros [?|?]|by right]. }
        destruct (String.eqb (URL c) u) eqn:Hu; injection Heval as -> _; [|done].
        cbn [heap]. by rewrite lookup_insert_ne.
Qed.

Lemma MarkBackendStatus_heap (u : string) (a : bool) (w : World) :
  allocated w (backends (servers w)) = true →
  ∃ w' t, MarkBackendStatus u a w = (Ok tt, w', t)
          ∧ servers w' = servers w
          ∧ ∀ q, heap w' !! q = marked u a (backends (servers w)) (heap w) q.
Proof.
  intros Hall. unfold MarkBackendStatus. rewrite (bind_pure _ _ w w (get_pure w)).
  by apply range_mark_heap.
Qed.

(** X11: on a pool without nil members [MarkBackendStatus(u, a)] returns
    and sets the flag of EVERY member whose address is [u] to [a] (all of
    them when the address occurs more than once); members with another
    address, backends outside the pool, the member list and the cursor are
    left exactly as they were. *)
Theorem MarkBackendStatus_marks_every_match (u : string) (a : bool) (w : World) :
  allocated w (backends (servers w)) = true →
  result (MarkBackendStatus u a w) = Ok tt
  ∧ servers (final (MarkBackendStatus u a w)) = servers w
  ∧ ∀ q, heap (final (MarkBackendStatus u a w)) !! q
         = match heap w !! q with
           | Some c =>
               if bool_decide (q ∈ backends (servers w)) && String.eqb (URL c) u
               then Some (mkBackend (URL c) a (capacity c) (flow c))
               else Some c
           | None => None
           end.
Proof.
  intros Hall. destruct (MarkBackendStatus_heap u a w Hall) as (w' & t & -> & Hs & Hh).
  done.
Qed.

Lemma MarkBackendStatus_marks_every_match_witness :
  let w := mkWorld (heap one_member_and_a_twin) (mkServers [1; 2]%nat 0) in
  allocated w (backends (servers w)) = true
  ∧ result (MarkBackendStatus "a" false w) = Ok tt
  ∧ effects (MarkBackendStatus "a" false w) = [EvSetAlive 1%nat false; EvSetAlive 2%nat false]
  ∧ servers (final (MarkBackendStatus "a" false w)) = servers w
  ∧ ∀ q, heap (final (MarkBackendStatus "a" false w)) !! q
         = match heap w !! q with
           | Some c =>
               if bool_decide (q ∈ backends (servers w)) && String.eqb (URL c) "a"
               then Some (mkBackend (URL c) false (capacity c) (flow c))
               else Some c
           | None => None
           end.
Proof.
  cbv zeta. split; [reflexivity|].
  destruct (MarkBackendStatus_marks_every_match "a" false
              (mkWorld (heap one_member_and_a_twin) (mkServers [1; 2]%nat 0)) eq_refl)
    as (Hres & Hsrv & Hheap).
  split; [exact Hres|]. split; [reflexivity|]. split; [exact Hsrv|exact Hheap].
Defined.

Lemma World_eq (w1 w2 : World) :
  heap w1 = heap w2 → servers w1 = servers w2 → w1 = w2.
Proof. destruct w1, w2. simpl. by intros -> ->. Qed.

Lemma marked_allocated (u : string) (a : bool) (w w' : World) (bs : list nat) :
  (∀ q, heap w' !! q = marked u a (backends (servers w)) (heap w) q) →
  allocated w bs = true → allocated w' bs = true.
Proof.
  intros Hh. unfold allocated. rewrite !forallb_forall. intros Hall p Hp.
  apply Hall, bool_decide_eq_true in Hp as [c Hc]. apply bool_decide_eq_true.
  rewrite Hh. unfold marked. rewrite Hc. by destruct (_ && _).
Qed.

(** X12: the last mark wins: on a pool without nil members, marking an
    address with one status and then with another leaves exactly the state
    that the second mark alone would have left. *)
Theorem MarkBackendStatus_last_wins (u : string) (a1 a2 : bool) (w : World) :
  allocated w (backends (servers w)) = true →
  result (MarkBackendStatus u a2 (final (MarkBackendStatus u a1 w))) = Ok tt
  ∧ final (MarkBackendStatus u a2 (final (MarkBackendStatus u a1 w)))
    = final (MarkBackendStatus u a2 w).
Proof.
  intros Hall.
  destruct (MarkBackendStatus_heap u a1 w Hall) as (w1 & t1 & -> & Hs1 & Hh1).
  destruct (MarkBackendStatus_heap u a2 w Hall) as (w2 & t2 & -> & Hs2 & Hh2).
  change (final (Ok tt, w1, t1)) with w1. change (final (Ok tt, w2, t2)) with w2.
  assert (allocated w1 (backends (servers w1)) = true) as Hall1.
  { rewrite Hs1. exact (marked_allocated u a1 w w1 _ Hh1 Hall). }
  destruct (MarkBackendStatus_heap u a2 w1 Hall1) as (w3 & t3 & -> & Hs3 & Hh3).
  split; [done|]. unfold final. cbn [fst snd].
  apply World_eq; [|congruence].
  apply map_eq. intros q. rewrite Hh3, Hh2. unfold marked. rewrite Hh1, Hs1.
  unfold marked. destruct (heap w !! q) as [c|]; [|done].
  destruct (bool_decide (q ∈ backends (servers w)) && String.eqb (URL c) u) eqn:Hcond.
  - cbn [URL capacity flow]. by rewrite Hcond.
  - by rewrite Hcond.
Qed.

Lemma MarkBackendStatus_last_wins_witness :
  allocated two_fresh (backends (servers two_fresh)) = true
  ∧ result (MarkBackendStatus "a" true (final (MarkBackendStatus "a" false two_fresh)))
    = Ok tt
  ∧ final (MarkBackendStatus "a" true (final (MarkBackendStatus "a" false two_fresh)))
    = final (MarkBackendStatus "a" true two_fresh).
Proof.
  split; [reflexivity|].
  apply (MarkBackendStatus_last_wins "a" false true two_fresh). reflexivity.
Defined.

(** ** AddBackend and the size of the pool *)

(** X13: [AddBackend] never returns normally: for every pool and every
    backend (nil included) it appends the backend and then panics with an
    index out of range, reading the slot one past the new end of the member
    list. *)
Theorem AddBackend_always_panics (backend : nat) (w : World) :
  result (AddBackend backend w)
  = Panic (IndexOutOfRange (Z.of_nat (length (backends (servers w) ++ [backend])))
             (length (backends (servers w) ++ [backend])))
  ∧ backends (servers (final (AddBackend backend w))) = backends (servers w) ++ [backend]
  ∧ current (servers (final (AddBackend backend w))) = current (servers w)
  ∧ effects (AddBackend backend w) = [].
Proof.
  rewrite AddBackend_eval. unfold result, final, effects. cbn [fst snd servers backends current].
  split; [|done]. rewrite length_app. cbn [length]. unfold len.
  do 2 f_equal; lia.
Qed.

(** ** Tidy, when it returns *)

Lemma bind_Ok_silent {A B} (m : M A) (k : A → M B) w a w1 :
  m w = (Ok a, w1, []) → bind m k w = k a w1.
Proof. intros Hm. unfold bind. rewrite Hm. by destruct (k a w1) as [[? ?] ?]. Qed.

Lemma insert_swap_app {A} (pre post : list A) (x y : A) :
  <[S (length pre) := y]> (<[length pre := x]> (pre ++ y :: x :: post))
  = pre ++ x :: y :: post.
Proof. induction pre as [|a pre IH]; simpl; [done|]. by rewrite IH. Qed.

Lemma lookup_app_here {A} (pre post : list A) (x : A) :
  (pre ++ x :: post) !! length pre = Some x.
Proof. by rewrite lookup_app_r, Nat.sub_diag. Qed.

Lemma lookup_app_next {A} (pre post : list A) (x y : A) :
  (pre ++ x :: y :: post) !! S (length pre) = Some y.
Proof.
  rewrite lookup_app_r by lia. by replace (S (length pre) - length pre)%nat with 1%nat by lia.
Qed.

Lemma free_of_inv (w : World) (p : nat) (f : Z) :
  free_of w p = Some f →
  ∃ b, heap w !! p = Some b ∧ f = wrap_int (capacity b - wrap_int (flow b)).
Proof.
  unfold free_of. destruct (heap w !! p) as [b|]; [|done].
  intros [= <-]. by exists b.
Qed.

Lemma free_at_free_of (w : World) (i : nat) (p : nat) :
  backends (servers w) !! i = Some p → free_at w (Z.of_nat i) = free_of w p.
Proof.
  intros Hp. unfold free_at, free_of.
  destruct (Z.leb_spec 0 (Z.of_nat i)); [|lia]. by rewrite Nat2Z.id, Hp.
Qed.

(** One turn of the loop, read forwards. *)
Lemma Tidy_loop_stop (fuel : nat) (l idx : Z) (w : World) (x y : Z) :
  free_at w idx = Some x → free_at w (idx + 1) = Some y → x <= y →
  Tidy_loop (S fuel) l idx w = (Ok tt, w, []).
Proof.
  intros Hx Hy Hxy.
  apply free_at_inv in Hx as (p & bp & H0 & Hp & Hbp & ->).
  apply free_at_inv in Hy as (q & bq & _ & Hq & Hbq & ->).
  cbn [Tidy_loop].
  rewrite (bind_pure _ _ _ _ (index_Some idx w p H0 Hp)).
  rewrite (bind_pure _ _ _ _ (Free_Some _ _ _ Hbp)).
  rewrite (bind_pure _ _ _ _ (index_Some (idx + 1) w q ltac:(lia) Hq)).
  rewrite (bind_pure _ _ _ _ (Free_Some _ _ _ Hbq)).
  by destruct (Z.gtb_spec (wrap_int (capacity bp - wrap_int (flow bp)))
                 (wrap_int (capacity bq - wrap_int (flow bq)))); [lia|].
Qed.

Lemma Tidy_loop_go (fuel : nat) (l idx : Z) (w : World) (p q : nat) (x y : Z) :
  0 <= idx → idx + 1 < l →
  backends (servers w) !! Z.to_nat idx = Some p →
  backends (servers w) !! S (Z.to_nat idx) = Some q →
  free_of w p = Some x → free_of w q = Some y → x > y →
  Tidy_loop (S fuel) l idx w
  = Tidy_loop fuel l (idx - 1)
      (mkWorld (heap w)
         (mkServers (<[S (Z.to_nat idx) := p]> (<[Z.to_nat idx := q]> (backends (servers w))))
            (current (servers w)))).
Proof.
  intros H0 Hl Hp Hq Hx Hy Hxy.
  apply free_of_inv in Hx as (bp & Hbp & ->).
  apply free_of_inv in Hy as (bq & Hbq & ->).
  assert (Z.to_nat (idx + 1) = S (Z.to_nat idx)) as Hs by lia.
  cbn [Tidy_loop].
  rewrite (bind_pure _ _ _ _ (index_Some idx w p H0 Hp)).
  rewrite (bind_pure _ _ _ _ (Free_Some _ _ _ Hbp)).
  rewrite (bind_pure _ _ _ _ (index_Some (idx + 1) w q ltac:(lia) ltac:(by rewrite Hs))).
  rewrite (bind_pure _ _ _ _ (Free_Some _ _ _ Hbq)).
  destruct (Z.gtb_spec (wrap_int (capacity bp - wrap_int (flow bp)))
              (wrap_int (capacity bq - wrap_int (flow bq)))); [|lia].
  destruct (Z.ltb_spec (idx + 1) l); [|lia]. cbn [andb].
  apply lookup_lt_Some in Hq as Hlen.
  by rewrite (bind_Ok_silent _ _ _ _ _
                (swap_in_range idx w q p H0 ltac:(unfold len; lia) Hp Hq)).
Qed.

Lemma free_of_same_heap (w w1 : World) (p : nat) :
  heap w1 = heap w → free_of w1 p = free_of w p.
Proof. unfold free_of. by intros ->. Qed.

Lemma above_same_heap (w w1 : World) (f : Z) (ms : list nat) :
  heap w1 = heap w → forallb (above w1 f) ms = forallb (above w f) ms.
Proof.
  intros Hh. induction ms as [|m ms IH]; [done|]. simpl. rewrite IH.
  unfold above. by rewrite (free_of_same_heap w w1 m Hh).
Qed.

(** The member at [idx+1] is carried toward the front, past every member
    with strictly more free capacity, and put down after the first member
    that has no more free capacity than it. *)
Lemma Tidy_loop_inserts (l : Z) (l1 : list nat) (a e : nat) (fa fe : Z) (mid : list nat) :
  ∀ (l2 : list nat) (fuel : nat) (w : World),
    backends (servers w) = l1 ++ a :: mid ++ e :: l2 →
    free_of w a = Some fa → free_of w e = Some fe → fa <= fe →
    forallb (above w fe) mid = true →
    (length mid < fuel)%nat →
    Z.of_nat (length l1 + length mid + 1) < l →
    Tidy_loop fuel l (Z.of_nat (length l1 + length mid)) w
    = (Ok tt,
       mkWorld (heap w) (mkServers (l1 ++ a :: e :: mid ++ l2) (current (servers w))),
       []).
Proof.
  induction mid as [|m mid IH] using rev_ind;
    intros l2 fuel w Hbs Ha He Hae Hmid Hfuel Hl.
  - destruct fuel as [|fuel]; [simpl in Hfuel; lia|].
    cbn [length app] in *. rewrite Nat.add_0_r.
    rewrite (Tidy_loop_stop fuel l _ w fa fe); [| | |done].
    + f_equal. f_equal. destruct w as [h [bs c]]. simpl in *. by rewrite Hbs.
    + rewrite (free_at_free_of w _ a); [done|]. rewrite Hbs. apply lookup_app_here.
    + replace (Z.of_nat (length l1) + 1) with (Z.of_nat (S (length l1))) by lia.
      rewrite (free_at_free_of w _ e); [done|]. rewrite Hbs. apply lookup_app_next.
  - destruct fuel as [|fuel]; [lia|].
    rewrite forallb_app in Hmid. apply andb_prop in Hmid as [Hmid Hm].
    simpl in Hm. rewrite andb_true_r in Hm. unfold above in Hm.
    destruct (free_of w m) as [fm|] eqn:Hfm; [|done].
    apply Z.ltb_lt in Hm.
    rewrite length_app in *. cbn [length] in *.
    set (pre := l1 ++ a :: mid).
    assert (backends (servers w) = pre ++ m :: e :: l2) as Hbs'.
    { rewrite Hbs. unfold pre. by rewrite <- !app_assoc. }
    assert (length pre = (length l1 + (length mid + 1))%nat) as Hpre.
    { unfold pre. rewrite length_app. simpl. lia. }
    rewrite (Tidy_loop_go fuel l _ w m e fm fe); [|lia|lia| | |done|done|lia].
    2:{ rewrite Nat2Z.id, <- Hpre, Hbs'. apply lookup_app_here. }
    2:{ rewrite Nat2Z.id, <- Hpre, Hbs'. apply lookup_app_next. }
    rewrite Nat2Z.id, <- Hpre, Hbs', insert_swap_app.
    set (w1 := mkWorld _ _).
    replace (Z.of_nat (length pre) - 1) with (Z.of_nat (length l1 + length mid)) by lia.
    rewrite (IH (m :: l2) fuel w1); [| |done|done|done| |lia|lia].
    + cbn [heap servers current]. do 3 f_equal. by rewrite <- !app_assoc.
    + unfold w1, pre. cbn [servers backends]. by rewrite <- !app_assoc.
    + by rewrite (above_same_heap w w1).
Qed.

Lemma Tidy_inserts_eval (w : World) (l1 mid l2 : list nat) (a e : nat) (fa fe : Z) :
  backends (servers w) = l1 ++ a :: mid ++ e :: l2 →
  free_of w a = Some fa → free_of w e = Some fe → fa <= fe →
  forallb (above w fe) mid = true →
  Tidy (Z.of_nat (length l1 + length mid)) w
  = (Ok tt,
     mkWorld (heap w) (mkServers (l1 ++ a :: e :: mid ++ l2) (current (servers w))),
     []).
Proof.
  intros Hbs Ha He Hae Hmid. unfold Tidy.
  rewrite (bind_pure _ _ w w (get_pure w)).
  apply (Tidy_loop_inserts _ _ _ _ fa fe); try done; [lia|].
  unfold len. rewrite Hbs, length_app. cbn [length]. rewrite length_app. cbn [length]. lia.
Qed.

(** X14: what [Tidy(idx)] does when it returns.  Let [e] be the member at
    [idx+1], let every member of the span [mid] that ends at [idx] have
    strictly more free capacity than [e], and let the member [a] just before
    that span have no more free capacity than [e].  Then [Tidy(idx)] returns,
    having moved [e] from behind the span to just before it; the heap, the
    cursor and all other positions are unchanged, and nothing observable is
    done. *)
Theorem Tidy_moves_member_forward
    (w : World) (l1 mid l2 : list nat) (a e : nat) (fa fe : Z) :
  backends (servers w) = l1 ++ a :: mid ++ e :: l2 →
  free_of w a = Some fa → free_of w e = Some fe → fa <= fe →
  forallb (above w fe) mid = true →
  Tidy (Z.of_nat (length l1 + length mid)) w
  = (Ok tt,
     mkWorld (heap w) (mkServers (l1 ++ a :: e :: mid ++ l2) (current (servers w))),
     []).
Proof. apply Tidy_inserts_eval. Qed.

Lemma Tidy_moves_member_forward_witness :
  backends (servers frees_1_7_5_3_9) = [] ++ 1%nat :: [2; 3]%nat ++ 4%nat :: [5%nat]
  ∧ free_of frees_1_7_5_3_9 1%nat = Some 1
  ∧ free_of frees_1_7_5_3_9 4%nat = Some 3
  ∧ 1 <= 3
  ∧ forallb (above frees_1_7_5_3_9 3) [2; 3]%nat = true
  ∧ Tidy 2 frees_1_7_5_3_9
    = (Ok tt,
       mkWorld (heap frees_1_7_5_3_9) (mkServers [1; 4; 2; 3; 5]%nat 0), []).
Proof.
  split; [reflexivity|]. split; [reflexivity|]. split; [reflexivity|].
  split; [by vm_compute|]. split; [reflexivity|].
  exact (Tidy_moves_member_forward frees_1_7_5_3_9 [] [2; 3]%nat [5%nat]
           1%nat 4%nat 1 3 eq_refl eq_refl eq_refl ltac:(by vm_compute) eq_refl).
Defined.

(** ** GetNextBackend, when the scan finds an alive member *)

Lemma World_eta (w : World) :
  mkWorld (heap w) (mkServers (backends (servers w)) (current (servers w))) = w.
Proof. by destruct w as [h [bs c]]. Qed.

(** the state in which the deferred [Tidy] runs *)
Lemma GetNextBackend_after_scan (w : World) (pre rest : list nat) (p : nat) :
  backends (servers w) = pre ++ p :: rest →
  all_dead w pre = true → alive_at w p = true →
  GetNextBackend w
  = (match result (Tidy (Z.of_nat (length pre))
                     (if Z.of_nat (length pre) =? 0 then w
                      else with_current w (wrap_uint64 (Z.of_nat (length pre))))) with
     | Ok _ => Ok p
     | Panic e => Panic e
     | OutOfFuel => OutOfFuel
     end,
     final (Tidy (Z.of_nat (length pre))
              (if Z.of_nat (length pre) =? 0 then w
               else with_current w (wrap_uint64 (Z.of_nat (length pre))))),
     EvGetNextBackend
     :: effects (Tidy (Z.of_nat (length pre))
                   (if Z.of_nat (length pre) =? 0 then w
                    else with_current w (wrap_uint64 (Z.of_nat (length pre)))))).
Proof.
  intros Hbs Hdead Hp. unfold GetNextBackend.
  rewrite (bind_Ok _ _ w tt w [EvGetNextBackend]); [|done].
  rewrite (bind_pure _ _ w w (get_pure w)).
  assert (S (length (backends (servers w))) = length pre + S (S (length rest)))%nat as ->
    by (rewrite Hbs, length_app; simpl; lia).
  rewrite (bind_pure _ _ w _
             (scan_alive_first_alive w pre rest p (S (length rest)) Hbs Hdead Hp)).
  set (n := Z.of_nat (length pre)).
  set (w1 := if n =? 0 then w else with_current w (wrap_uint64 n)).
  assert (backends (servers w1) = backends (servers w)) as Hbs1
    by (unfold w1; by destruct (n =? 0)).
  rewrite (bind_Ok_silent _ _ w tt w1).
  2:{ unfold w1. by destruct (n =? 0). }
  rewrite (bind_pure _ _ w1 p).
  2:{ apply index_Some; [lia|]. unfold n. rewrite Nat2Z.id, Hbs1, Hbs.
      apply lookup_app_here. }
  unfold bind, result, final, effects. cbn [fst snd].
  destruct (Tidy n w1) as [[[[]| |] w2] t2]; simpl; by rewrite ?app_nil_r.
Qed.

(** X15: when [GetNextBackend] returns a backend, that backend is alive and
    is the member at the lowest index whose backend is alive; the heap is
    untouched, the members are a permutation of what they were, the cursor is
    set to that index when the index is not 0 and is left alone when it is 0,
    and nothing observable is done. *)
Theorem GetNextBackend_returns_first_alive
    (w w' : World) (q : nat) (t : list event) :
  GetNextBackend w = (Ok q, w', t) →
  ∃ n, 0 <= n
       ∧ backends (servers w) !! Z.to_nat n = Some q
       ∧ alive_at w q = true
       ∧ (∀ j, 0 <= j < n →
            ∃ q', backends (servers w) !! Z.to_nat j = Some q' ∧ dead_at w q' = true)
       ∧ heap w' = heap w
       ∧ backends (servers w') ≡ₚ backends (servers w)
       ∧ current (servers w')
         = (if n =? 0 then current (servers w) else wrap_uint64 n)
       ∧ t = [EvGetNextBackend].
Proof.
  intros Hget.
  pose proof (GetNextBackend_reorders w) as [Hheap Hperm].
  pose proof (GetNextBackend_effects w) as Heff.
  rewrite Hget in Hheap, Hperm, Heff.
  unfold final, effects in *. cbn [fst snd] in *.
  destruct (GetNextBackend_inv_Ok _ _ _ _ Hget) as (n & H0 & Hq & Halive & Hdead).
  exists n. repeat split; try done.
  { symmetry. by apply adjacent_swaps_Permutation. }
  apply lookup_lt_Some in Hq as Hlt.
  pose proof (take_drop_middle _ _ _ Hq) as Hsplit. symmetry in Hsplit.
  assert (all_dead w (take (Z.to_nat n) (backends (servers w))) = true) as Hpre.
  { apply forallb_forall. intros m Hm. apply list_elem_of_In in Hm.
    apply list_elem_of_lookup in Hm as [j Hj].
    apply lookup_lt_Some in Hj as Hjlt. rewrite length_take in Hjlt.
    rewrite lookup_take_lt in Hj by lia.
    destruct (Hdead (Z.of_nat j) ltac:(lia)) as (q' & Hq' & Hd).
    rewrite Nat2Z.id, Hj in Hq'. by injection Hq' as <-. }
  pose proof (GetNextBackend_after_scan w _ _ q Hsplit Hpre Halive) as Heval.
  rewrite length_take, Nat.min_l, Z2Nat.id in Heval by lia.
  rewrite Hget in Heval.
  set (w1 := if n =? 0 then w else with_current w (wrap_uint64 n)) in *.
  pose proof (Tidy_keeps_current n w1) as Hcur. unfold keeps_current in Hcur.
  injection Heval as _ -> _. rewrite Hcur. unfold w1. by destruct (n =? 0).
Qed.

Lemma GetNextBackend_returns_first_alive_witness :
  let w := final (MarkBackendStatus "a" false three_fresh) in
  GetNextBackend w = (Ok 2%nat, with_current w 1, [EvGetNextBackend])
  ∧ ∃ n, 0 <= n
       ∧ backends (servers w) !! Z.to_nat n = Some 2%nat
       ∧ alive_at w 2%nat = true
       ∧ (∀ j, 0 <= j < n →
            ∃ q', backends (servers w) !! Z.to_nat j = Some q' ∧ dead_at w q' = true)
       ∧ heap (with_current w 1) = heap w
       ∧ backends (servers (with_current w 1)) ≡ₚ backends (servers w)
       ∧ current (servers (with_current w 1))
         = (if n =? 0 then current (servers w) else wrap_uint64 n)
       ∧ [EvGetNextBackend] = [EvGetNextBackend].
Proof.
  cbv zeta. split; [reflexivity|].
  apply (GetNextBackend_returns_first_alive
           (final (MarkBackendStatus "a" false three_fresh))).
  reflexivity.
Defined.

(** X16: when the lowest-index alive member is not the last one and has no
    more free capacity than the member after it, [GetNextBackend] returns it,
    leaves the order of the members as it is, and only sets the cursor (when
    the index is not 0). *)
Theorem GetNextBackend_selects
    (w : World) (pre rest : list nat) (p q : nat) (fp fq : Z) :
  backends (servers w) = pre ++ p :: q :: rest →
  all_dead w pre = true → alive_at w p = true →
  free_of w p = Some fp → free_of w q = Some fq → fp <= fq →
  GetNextBackend w
  = (Ok p,
     (if Z.of_nat (length pre) =? 0 then w
      else with_current w (wrap_uint64 (Z.of_nat (length pre)))),
     [EvGetNextBackend]).
Proof.
  intros Hbs Hdead Hp Hfp Hfq Hle.
  rewrite (GetNextBackend_after_scan w pre (q :: rest) p Hbs Hdead Hp).
  set (w1 := if _ =? 0 then w else _).
  assert (backends (servers w1) = backends (servers w)) as Hbs1
    by (unfold w1; by destruct (_ =? 0)).
  assert (heap w1 = heap w) as Hh1 by (unfold w1; by destruct (_ =? 0)).
  pose proof (Tidy_inserts_eval w1 pre [] rest p q fp fq) as Htidy.
  cbn [length app] in Htidy. rewrite Nat.add_0_r in Htidy.
  rewrite Htidy; [| by rewrite Hbs1 | by rewrite (free_of_same_heap w w1)
                  | by rewrite (free_of_same_heap w w1) | done | done].
  unfold result, final, effects. cbn [fst snd]. do 2 f_equal.
  rewrite <- Hbs, <- Hbs1. apply World_eta.
Qed.

Lemma GetNextBackend_selects_witness :
  backends (servers three_fresh) = [] ++ 1%nat :: 2%nat :: [3%nat]
  ∧ all_dead three_fresh [] = true ∧ alive_at three_fresh 1%nat = true
  ∧ free_of three_fresh 1%nat = Some 0 ∧ free_of three_fresh 2%nat = Some 0
  ∧ 0 <= 0
  ∧ GetNextBackend three_fresh = (Ok 1%nat, three_fresh, [EvGetNextBackend]).
Proof.
  split; [reflexivity|]. split; [reflexivity|]. split; [reflexivity|].
  split; [reflexivity|]. split; [reflexivity|]. split; [by vm_compute|].
  exact (GetNextBackend_selects three_fresh [] [3%nat] 1%nat 2%nat 0 0
           eq_refl eq_refl eq_refl eq_refl eq_refl ltac:(by vm_compute)).
Defined.

(** ** GetNextBackend on a pool kept in descending order *)

Lemma descending_allocated (w : World) (bs : list nat) :
  descending w bs = true → allocated w bs = true.
Proof.
  induction bs as [|p bs IH]; [done|]. simpl. intros Hd.
  apply andb_prop in Hd as [Hp Hbs]. rewrite IH by done. rewrite andb_true_r.
  apply bool_decide_eq_true. unfold free_of in Hp.
  by destruct (heap w !! p).
Qed.

Lemma first_alive_split (w : World) (bs : list nat) :
  allocated w bs = true →
  all_dead w bs = true
  ∨ ∃ pre p rest, bs = pre ++ p :: rest ∧ all_dead w pre = true ∧ alive_at w p = true.
Proof.
  induction bs as [|m bs IH]; [by left|]. simpl. intros Hall.
  apply andb_prop in Hall as [Hm Hbs]. apply bool_decide_eq_true in Hm as [b Hb].
  destruct (Alive b) eqn:Hab.
  - right. exists [], m, bs. split; [done|]. split; [done|].
    unfold alive_at. by rewrite Hb.
  - assert (dead_at w m = true) as Hd by (unfold dead_at; by rewrite Hb, Hab).
    destruct (IH Hbs) as [Hdead|(pre & p & rest & -> & Hdead & Hp)].
    + left. unfold all_dead in *. simpl. by rewrite Hd.
    + right. exists (m :: pre), p, rest. split; [done|]. split; [|done].
      unfold all_dead in *. simpl. by rewrite Hd.
Qed.

Lemma descending_above (w : World) (l : list nat) (q : nat) (rest : list nat) :
  descending w (l ++ q :: rest) = true →
  ∃ f, free_of w q = Some f
       ∧ ∀ m, m ∈ l → ∃ x, free_of w m = Some x ∧ x > f.
Proof.
  induction l as [|a l IH]; simpl; intros Hd; apply andb_prop in Hd as [Ha Hrest].
  - destruct (free_of w q) as [f|]; [|done]. exists f. split; [done|].
    intros m Hm. by apply elem_of_nil in Hm.
  - destruct (IH Hrest) as (f & Hf & Habove). exists f. split; [done|].
    intros m Hm. apply elem_of_cons in Hm as [->|Hm]; [|by apply Habove].
    destruct (free_of w a) as [x|]; [|done]. exists x. split; [done|].
    rewrite forallb_forall in Ha. specialize (Ha q).
    rewrite Hf in Ha. apply Z.lt_gt, Z.ltb_lt, Ha, in_elt.
Qed.

(** X17: on a pool whose members are in strictly descending order of free
    capacity (the order the selection is written for) [GetNextBackend] never
    returns a backend, whatever the liveness flags are: it panics with an
    index out of range, at index [len] (no member alive, or the first alive
    one is the last member) or at index -1 (the deferred [Tidy] carries the
    next member to the front). *)
Theorem GetNextBackend_panics_on_descending_pool (w : World) :
  descending w (backends (servers w)) = true →
  ∃ i, result (GetNextBackend w)
       = Panic (IndexOutOfRange i (length (backends (servers w))))
       ∧ (i = -1 ∨ i = len w).
Proof.
  intros Hdesc.
  destruct (first_alive_split w _ (descending_allocated _ _ Hdesc))
    as [Hdead|(pre & p & rest & Hbs & Hdead & Hp)].
  { exists (len w). by rewrite (GetNextBackend_no_alive w Hdead); auto. }
  rewrite (GetNextBackend_after_scan w pre rest p Hbs Hdead Hp).
  set (n := Z.of_nat (length pre)).
  set (w1 := if n =? 0 then w else with_current w (wrap_uint64 n)).
  assert (backends (servers w1) = backends (servers w)) as Hbs1
    by (unfold w1; by destruct (n =? 0)).
  assert (heap w1 = heap w) as Hh1 by (unfold w1; by destruct (n =? 0)).
  unfold result at 1. cbn [fst].
  destruct rest as [|q rest].
  - exists (len w). split; [|by right].
    unfold n. rewrite (Tidy_at_last w1 pre p); [| by rewrite Hbs1 | ].
    + unfold result, len. cbn [fst]. by rewrite Hbs1.
    + rewrite Hh1. apply alive_at_Some in Hp as (b & -> & _). by eexists.
  - exists (-1). split; [|by left].
    assert (backends (servers w) = (pre ++ [p]) ++ q :: rest) as Hbs'
      by (by rewrite Hbs, <- app_assoc).
    rewrite Hbs' in Hdesc.
    destruct (descending_above w _ _ _ Hdesc) as (f & Hf & Habove).
    rewrite (Tidy_front_out_of_range w1 n f); [by rewrite Hbs1|lia| |].
    + replace (n + 1) with (Z.of_nat (S (length pre))) by lia.
      rewrite (free_at_free_of w1 _ q), (free_of_same_heap w w1); [done|done|].
      rewrite Hbs1, Hbs. apply lookup_app_next.
    + intros j Hj.
      destruct (lookup_lt_is_Some_2 (pre ++ [p]) (Z.to_nat j)) as [m Hm];
        [rewrite length_app; simpl; lia|].
      destruct (Habove m) as (x & Hx & Hxf);
        [apply list_elem_of_lookup; eauto|].
      exists x. split; [|done].
      replace j with (Z.of_nat (Z.to_nat j)) by lia.
      rewrite (free_at_free_of w1 _ m), (free_of_same_heap w w1); [done|done|].
      rewrite Hbs1, Hbs'. by apply lookup_app_l_Some.
Qed.

Lemma GetNextBackend_panics_on_descending_pool_witness :
  let w := pool_of [mkBackend "b1" true 10 0; mkBackend "b2" true 5 0] in
  descending w (backends (servers w)) = true
  ∧ ∃ i, result (GetNextBackend w) = Panic (IndexOutOfRange i 2)
         ∧ (i = -1 ∨ i = 2).
Proof.
  cbv zeta. split; [reflexivity|].
  apply (GetNextBackend_panics_on_descending_pool
           (pool_of [mkBackend "b1" true 10 0; mkBackend "b2" true 5 0])).
  reflexivity.
Defined.

(** ** The entry point within the attempts limit *)

Lemma lb_within_limit_eval (r : context) (w : World) :
  GetAttemptsFromContext r <= 3 →
  lb r w
  = (match result (GetNextBackend w) with
     | Ok p => Ok (Some (CallServeHTTP p r))
     | Panic e => Panic e
     | OutOfFuel => OutOfFuel
     end,
     final (GetNextBackend w), [EvGetNextBackend]).
Proof.
  intros Hr. unfold lb. destruct (Z.gtb_spec (GetAttemptsFromContext r) 3); [lia|].
  pose proof (GetNextBackend_effects w) as Heff.
  pose proof (GetNextBackend_reorders w) as [Hheap _].
  destruct (GetNextBackend w) as [[[p| |] w1] t1] eqn:Hget;
    unfold effects, final in *; cbn [fst snd] in *; subst t1.
  - rewrite (bind_Ok _ _ _ _ _ _ Hget). rewrite (bind_pure _ _ w1 w1 (get_pure w1)).
    apply GetNextBackend_inv_Ok in Hget as (n & _ & _ & Ha & _).
    apply alive_at_Some in Ha as (b & Hb & _). rewrite <- Hheap in Hb.
    by rewrite Hb.
  - by rewrite (bind_Panic _ _ _ _ _ _ Hget).
  - by rewrite (bind_OutOfFuel _ _ _ _ _ Hget).
Qed.

(** X18: whenever [lb] hands a request to a proxy, the request's attempts
    counter is at most 3, the backend chosen is alive, the request is passed
    on with its context unchanged, the heap is untouched, and [lb] itself has
    written no response. *)
Theorem lb_dispatches_to_alive_backend
    (r : context) (w w' : World) (c : call) (t : list event) :
  lb r w = (Ok (Some c), w', t) →
  GetAttemptsFromContext r <= 3
  ∧ ∃ p, c = CallServeHTTP p r
         ∧ alive_at w p = true
         ∧ p ∈ backends (servers w)
         ∧ heap w' = heap w
         ∧ t = [EvGetNextBackend].
Proof.
  intros Hlb.
  destruct (Z.le_gt_cases (GetAttemptsFromContext r) 3) as [Hr|Hr].
  2:{ unfold lb in Hlb.
      destruct (Z.gtb_spec (GetAttemptsFromContext r) 3); [done|lia]. }
  split; [done|]. rewrite (lb_within_limit_eval r w Hr) in Hlb.
  pose proof (GetNextBackend_reorders w) as [Hheap _].
  destruct (GetNextBackend w) as [[[p| |] w1] t1] eqn:Hget;
    unfold result, final in *; cbn [fst snd] in *; [|done..].
  injection Hlb as <- <- <-.
  apply GetNextBackend_inv_Ok in Hget as (n & _ & Hp & Ha & _).
  exists p. repeat split; try done. apply list_elem_of_lookup. eauto.
Qed.

Lemma lb_dispatches_to_alive_backend_witness :
  lb [] two_fresh = (Ok (Some (CallServeHTTP 1%nat [])), two_fresh, [EvGetNextBackend])
  ∧ GetAttemptsFromContext [] <= 3
  ∧ ∃ p, CallServeHTTP 1%nat [] = CallServeHTTP p []
         ∧ alive_at two_fresh p = true
         ∧ p ∈ backends (servers two_fresh)
         ∧ heap two_fresh = heap two_fresh
         ∧ [EvGetNextBackend] = [EvGetNextBackend].
Proof.
  split; [reflexivity|].
  apply (lb_dispatches_to_alive_backend [] two_fresh two_fresh
           (CallServeHTTP 1%nat []) [EvGetNextBackend]).
  reflexivity.
Defined.

(** X19: for a request within the attempts limit [lb] never answers the
    client itself: it writes no response (no 503 either) and never returns
    without having handed the request on; it hands it to a proxy or panics
    with [GetNextBackend].  The branch for a nil backend is never taken. *)
Theorem lb_never_answers_within_limit (r : context) (w : World) :
  GetAttemptsFromContext r <= 3 →
  effects (lb r w) = [EvGetNextBackend]
  ∧ result (lb r w) ≠ Ok None
  ∧ result (lb r w) ≠ OutOfFuel
  ∧ (∀ e, result (lb r w) = Panic e → result (GetNextBackend w) = Panic e).
Proof.
  intros Hr. rewrite (lb_within_limit_eval r w Hr).
  pose proof (GetNextBackend_terminates w) as Hterm.
  unfold result, effects in *. cbn [fst snd].
  destruct (GetNextBackend w) as [[[p| |] w1] t1]; cbn [fst snd] in *;
    repeat split; try done.
  intros e0 He0. by injection He0 as ->.
Qed.

Lemma lb_never_answers_within_limit_witness :
  GetAttemptsFromContext [] <= 3
  ∧ effects (lb [] one_dead) = [EvGetNextBackend]
  ∧ result (lb [] one_dead) ≠ Ok None
  ∧ result (lb [] one_dead) ≠ OutOfFuel
  ∧ (∀ e, result (lb [] one_dead) = Panic e →
          result (GetNextBackend one_dead) = Panic e).
Proof.
  split; [by vm_compute|].
  apply (lb_never_answers_within_limit [] one_dead). by vm_compute.
Defined.

(** ** Failover *)

(** X20: with a retry count of 3 or more, on a pool without nil members,
    the error handler marks every member with the failed proxy's address
    dead and hands the request back to [lb] with the value
    [attempts + 1] stored under the key [Attempts]; nothing else in the
    state changes.  When that key is the string "Attempts" the next reading
    of the attempts counter gives [attempts + 1], and the retry count is
    carried over as it is (it is not reset). *)
Theorem failover_marks_dead_and_counts
    (Retry Attempts : ctxkey) (serverUrl : string) (p : nat) (r : context) (w : World) :
  allocated w (backends (servers w)) = true →
  3 <= GetRetryFromContext r →
  ∃ w' t,
    DefaultErrorHandler Retry Attempts serverUrl p r w
    = (Ok (Some (CallLb (WithValue r Attempts
                           (AInt (wrap_int (GetAttemptsFromContext r + 1)))))),
       w', t)
    ∧ servers w' = servers w
    ∧ (∀ q, heap w' !! q = marked serverUrl false (backends (servers w)) (heap w) q)
    ∧ (Attempts = KString "Attempts" →
       GetAttemptsFromContext
         (WithValue r Attempts (AInt (wrap_int (GetAttemptsFromContext r + 1))))
       = wrap_int (GetAttemptsFromContext r + 1)
       ∧ GetRetryFromContext
           (WithValue r Attempts (AInt (wrap_int (GetAttemptsFromContext r + 1))))
         = GetRetryFromContext r).
Proof.
  intros Hall Hr. unfold DefaultErrorHandler.
  destruct (Z.ltb_spec (GetRetryFromContext r) 3); [lia|].
  destruct (MarkBackendStatus_heap serverUrl false w Hall) as (w' & t & Hmark & Hs & Hh).
  exists w', (t ++ []). rewrite (bind_Ok _ _ _ _ _ _ Hmark).
  split; [done|]. split; [done|]. split; [done|].
  intros ->. by unfold GetAttemptsFromContext, GetRetryFromContext, WithValue.
Qed.

Lemma failover_marks_dead_and_counts_witness :
  let r := [(KString "Retry", AInt 3)] in
  allocated two_fresh (backends (servers two_fresh)) = true
  ∧ 3 <= GetRetryFromContext r
  ∧ ∃ w' t,
      DefaultErrorHandler (KString "Retry") (KString "Attempts") "a" 1%nat r two_fresh
      = (Ok (Some (CallLb ((KString "Attempts", AInt 2) :: r))), w', t)
      ∧ servers w' = servers two_fresh
      ∧ (∀ q, heap w' !! q
              = marked "a" false (backends (servers two_fresh)) (heap two_fresh) q)
      ∧ GetAttemptsFromContext ((KString "Attempts", AInt 2) :: r) = 2
      ∧ GetRetryFromContext ((KString "Attempts", AInt 2) :: r) = 3.
Proof.
  cbv zeta. split; [reflexivity|]. split; [by vm_compute|].
  destruct (failover_marks_dead_and_counts (KString "Retry") (KString "Attempts")
              "a" 1%nat [(KString "Retry", AInt 3)] two_fresh eq_refl
              ltac:(by vm_compute))
    as (w' & t & Heval & Hs & Hh & Hkeys).
  exists w', t. split; [exact Heval|]. split; [exact Hs|]. split; [exact Hh|].
  split; reflexivity.
Defined.

(** ** The request context *)

(** X21: the counters read back what was stored under their string keys;
    a binding of another key does not change them; and a value that is not
    an [int], bound innermost under the key, makes the reader fall back to
    its default (1 attempt, 0 retries) even when an [int] is bound further
    out. *)
Theorem context_counters (r : context) (n : Z) (k : ctxkey) (v : any) :
  GetAttemptsFromContext (WithValue r (KString "Attempts") (AInt n)) = n
  ∧ GetRetryFromContext (WithValue r (KString "Retry") (AInt n)) = n
  ∧ GetAttemptsFromContext (WithValue r (KString "Attempts") AOther) = 1
  ∧ GetRetryFromContext (WithValue r (KString "Retry") AOther) = 0
  ∧ (ctxkey_eqb k (KString "Attempts") = false →
     GetAttemptsFromContext (WithValue r k v) = GetAttemptsFromContext r)
  ∧ (ctxkey_eqb k (KString "Retry") = false →
     GetRetryFromContext (WithValue r k v) = GetRetryFromContext r).
Proof.
  unfold GetAttemptsFromContext, GetRetryFromContext, WithValue. cbn [Value].
  repeat split; try done; by intros ->.
Qed.

Lemma context_counters_witness :
  GetAttemptsFromContext [(KString "Attempts", AInt 2); (KString "Attempts", AInt 1)] = 2
  ∧ GetRetryFromContext [(KString "Retry", AInt 2); (KString "Attempts", AInt 1)] = 2
  ∧ GetAttemptsFromContext [(KString "Attempts", AOther); (KString "Attempts", AInt 1)] = 1
  ∧ GetRetryFromContext [(KString "Retry", AOther); (KString "Attempts", AInt 1)] = 0
  ∧ GetAttemptsFromContext [(KString "Retry", AInt 7); (KString "Attempts", AInt 1)] = 1
  ∧ GetRetryFromContext [(KOther 0, AInt 7); (KString "Attempts", AInt 1)] = 0.
Proof.
  destruct (context_counters [(KString "Attempts", AInt 1)] 2 (KString "Retry") (AInt 7))
    as (H1 & H2 & H3 & H4 & H5 & _).
  destruct (context_counters [(KString "Attempts", AInt 1)] 2 (KOther 0) (AInt 7))
    as (_ & _ & _ & _ & _ & H6).
  split; [exact H1|]. split; [exact H2|]. split; [exact H3|]. split; [exact H4|].
  split; [exact (H5 eq_refl)|exact (H6 eq_refl)].
Defined.

(** ** Histories of pool operations *)

Lemma final_bind_ret {A B} (m : M A) (f : A → B) (w : World) :
  final (bind m (λ x, ret (f x)) w) = final (m w).
Proof. unfold bind, final, ret. by destruct (m w) as [[[a| |] w1] t1]. Qed.

Lemma exec_frame (o : op) (w : World) :
  same_but_alive (heap w) (heap (final (exec o w)))
  ∧ length (backends (servers (final (exec o w))))
    = (length (backends (servers w))
       + match o with OpAddBackend _ => 1 | _ => 0 end)%nat.
Proof.
  destruct o; cbn [exec]; rewrite final_bind_ret.
  - rewrite AddBackend_eval. unfold final. cbn [fst snd heap servers backends].
    split; [apply same_but_alive_refl|]. by rewrite length_app.
  - rewrite NextIndex_eval. unfold final. cbn [fst snd heap servers backends].
    split; [apply same_but_alive_refl|lia].
  - destruct (MarkBackendStatus_respects flips_flags SetAlive_flips_flags
                backendUrl alive w) as [Hs Hh].
    split; [done|]. rewrite Hs. lia.
  - destruct (GetNextBackend_reorders w) as [Hh Hp]. rewrite Hh.
    split; [apply same_but_alive_refl|].
    apply adjacent_swaps_Permutation, Permutation_length in Hp. lia.
  - destruct (Tidy_reorders idx w) as [Hh Hp]. rewrite Hh.
    split; [apply same_but_alive_refl|].
    apply adjacent_swaps_Permutation, Permutation_length in Hp. lia.
  - destruct (HealthCheck_range_respects flips_flags dial
                (check_member_flips_flags dial) w) as [Hs Hh].
    split; [done|]. rewrite Hs. lia.
  - destruct (SetAlive_flips_flags p alive w) as [Hs Hh].
    split; [done|]. rewrite Hs. lia.
Qed.

(** X22: through any sequence of pool operations (calls that panic
    included) no backend object appears or disappears and none changes its
    address, capacity or flow; and the pool never shrinks: its size grows by
    exactly the number of [AddBackend] calls. *)
Theorem history_keeps_backends_and_size (ops : list op) (w : World) :
  same_but_alive (heap w) (heap (history ops w).1.1)
  ∧ length (backends (servers (history ops w).1.1))
    = (length (backends (servers w)) + adds ops)%nat.
Proof.
  revert w. induction ops as [|o ops IH]; intros w.
  - split; [apply same_but_alive_refl|]. simpl. unfold adds. simpl. lia.
  - cbn [history]. specialize (IH (final (exec o w))).
    destruct (history ops (final (exec o w))) as [[w' t] sel].
    cbn [fst snd] in *. destruct IH as [Hh Hlen].
    destruct (exec_frame o w) as [Hh1 Hlen1].
    split; [by eapply same_but_alive_trans|].
    rewrite Hlen, Hlen1. unfold adds. destruct o; simpl; lia.
Qed.

(** A history with two additions, a selection that panics, a sweep and a
    mark. *)
Example history_sizes :
  let ops := [OpAddBackend 1; OpGetNextBackend; OpAddBackend 2;
              OpHealthCheck (λ _ _, true); OpMarkBackendStatus "a" false;
              OpTidy 0; OpNextIndex]%nat in
  backends (servers (history ops one_member_and_a_twin).1.1) = [1; 1; 2]%nat
  ∧ adds ops = 2%nat.
Proof. by vm_compute. Qed.

(** ** Failover is bounded *)

Lemma dispatches_app (t1 t2 : list event) :
  dispatches (t1 ++ t2) = (dispatches t1 + dispatches t2)%nat.
Proof. unfold dispatches. by rewrite List.filter_app, length_app. Qed.

Global Instance no_dispatch_composable : Composable no_dispatch.
Proof.
  split; unfold no_dispatch; [done|].
  intros _ _ _ t1 t2 H1 H2. rewrite dispatches_app. lia.
Qed.

Lemma SetAlive_no_dispatch (q : nat) (a : bool) : respects no_dispatch (SetAlive q a).
Proof.
  intros w. destruct (heap w !! q) as [b|] eqn:Hb.
  - by rewrite (SetAlive_Some _ _ _ _ Hb).
  - by rewrite (SetAlive_None _ _ _ Hb).
Qed.

Lemma MarkBackendStatus_terminates (u : string) (a : bool) :
  terminates (MarkBackendStatus u a).
Proof.
  intros w. pose proof (pool_operations_terminate (OpMarkBackendStatus u a) w) as Ht.
  cbn [exec] in Ht. unfold result, bind in *.
  by destruct (MarkBackendStatus u a w) as [[[[]| |] w1] t1].
Qed.

Section Failover.
Variable Retry : ctxkey.

Lemma ServeHTTP_failover (Attempts : ctxkey) (n p : nat) (b : Backend)
    (r : context) (w : World) :
  heap w !! p = Some b → 3 <= GetRetryFromContext r →
  ServeHTTP Retry Attempts always_fail n p r w
  = (match result (MarkBackendStatus (URL b) false w) with
     | Ok _ => Ok (Some (CallLb (WithValue r Attempts
                                   (AInt (wrap_int (GetAttemptsFromContext r + 1))))))
     | Panic e => Panic e
     | OutOfFuel => OutOfFuel
     end,
     final (MarkBackendStatus (URL b) false w),
     EvDispatch p r :: effects (MarkBackendStatus (URL b) false w)).
Proof.
  intros Hb Hr. unfold ServeHTTP.
  rewrite (bind_pure _ _ _ _ (load_Some _ _ _ Hb)).
  rewrite (bind_Ok _ _ w tt w [EvDispatch p r]); [|done].
  unfold always_fail, DefaultErrorHandler.
  destruct (Z.ltb_spec (GetRetryFromContext r) 3); [lia|].
  unfold bind, result, final, effects. cbn [fst snd].
  destruct (MarkBackendStatus (URL b) false w) as [[[[]| |] w1] t1]; simpl;
    by rewrite ?app_nil_r.
Qed.

(** Once the retry count has reached 3 every failure moves the request on
    to the next attempt, and [lb] stops at the fourth. *)
Lemma serve_failover_bounded (k : nat) :
  ∀ (fuel n : nat) (r : context) (w : World),
    3 <= GetRetryFromContext r →
    - int_half <= GetAttemptsFromContext r →
    4 - GetAttemptsFromContext r <= Z.of_nat k →
    (2 * k < fuel)%nat →
    result (serve Retry (KString "Attempts") always_fail fuel n (CallLb r) w) ≠ OutOfFuel
    ∧ (dispatches
         (effects (serve Retry (KString "Attempts") always_fail fuel n (CallLb r) w))
       <= k)%nat.
Proof.
  assert (∀ fuel n r w, GetAttemptsFromContext r > 3 →
            serve Retry (KString "Attempts") always_fail (S fuel) n (CallLb r) w
            = (Ok tt, w, [EvRespond StatusServiceUnavailable])) as Hstop.
  { intros fuel n r w Hr. cbn [serve]. unfold lb.
    by destruct (Z.gtb_spec (GetAttemptsFromContext r) 3); [|lia]. }
  induction k as [|k IH]; intros fuel n r w Hretry Hmin Hatt Hfuel.
  - destruct fuel as [|fuel]; [lia|]. rewrite Hstop by lia.
    split; [done|]. by vm_compute.
  - destruct fuel as [|[|fuel]]; [lia..|].
    destruct (Z.le_gt_cases (GetAttemptsFromContext r) 3) as [Hr|Hr].
    2:{ rewrite Hstop by lia. split; [done|]. vm_compute. lia. }
    cbn [serve]. pose proof (lb_within_limit_eval r w Hr) as Hlb.
    pose proof (GetNextBackend_terminates w) as Hterm.
    pose proof (GetNextBackend_reorders w) as [Hheap _].
    destruct (GetNextBackend w) as [[[p| |] w1] t1] eqn:Hget;
      unfold result, final, effects in Hlb, Hterm, Hheap;
      cbn [fst snd] in Hlb, Hterm, Hheap; [| |done].
    2:{ rewrite (bind_Panic _ _ _ _ _ _ Hlb). split; [done|]. vm_compute. lia. }
    rewrite (bind_Ok _ _ _ _ _ _ Hlb).
    apply GetNextBackend_inv_Ok in Hget as (i & _ & _ & Ha & _).
    apply alive_at_Some in Ha as (b & Hb & _). rewrite <- Hheap in Hb.
    pose proof (ServeHTTP_failover (KString "Attempts") n p b r w1 Hb Hretry) as Hserve.
    pose proof (MarkBackendStatus_terminates (URL b) false w1) as Hmt.
    pose proof (MarkBackendStatus_respects no_dispatch SetAlive_no_dispatch
                  (URL b) false w1) as Hnd.
    unfold no_dispatch in Hnd.
    destruct (MarkBackendStatus (URL b) false w1) as [[[[]| |] w2] t2];
      unfold result, final, effects in Hserve, Hmt, Hnd;
      cbn [fst snd] in Hserve, Hmt, Hnd; [| |done].
    2:{ rewrite (bind_Panic _ _ _ _ _ _ Hserve).
        unfold result, effects. cbn [fst snd]. split; [done|].
        change ([EvGetNextBackend] ++ EvDispatch p r :: t2)
          with ([EvGetNextBackend; EvDispatch p r] ++ t2).
        rewrite dispatches_app, Hnd. vm_compute. lia. }
    rewrite (bind_Ok _ _ _ _ _ _ Hserve).
    set (r' := WithValue r (KString "Attempts")
                 (AInt (wrap_int (GetAttemptsFromContext r + 1)))).
    assert (GetRetryFromContext r' = GetRetryFromContext r) as Hretry' by done.
    assert (GetAttemptsFromContext r' = GetAttemptsFromContext r + 1) as Hatt'.
    { unfold r', GetAttemptsFromContext at 1, WithValue. cbn [Value ctxkey_eqb].
      rewrite String.eqb_refl. apply wrap_int_small. unfold int_half in *. lia. }
    destruct (IH fuel (S n) r' w2) as [Hres Hcount]; [lia..|].
    unfold result, effects in *. cbn [fst snd] in *. split; [done|].
    change ([EvGetNextBackend] ++ (EvDispatch p r :: t2) ++ ?t)
      with ([EvGetNextBackend; EvDispatch p r] ++ t2 ++ t).
    rewrite !dispatches_app, Hnd.
    change (dispatches [EvGetNextBackend; EvDispatch p r]) with 1%nat. lia.
Qed.

End Failover.

(** X23: a request whose retry count has reached 3 and whose attempts
    counter is at least 1, against proxies that always fail, comes to an end
    (an answer or a panic) within 7 handler steps, after at most 3
    dispatches: every failure moves it to the next attempt and [lb] refuses
    the fourth.  (The attempts key of the handler is the string
    "Attempts".) *)
Theorem exhausted_retries_fail_over_at_most_three_times
    (Retry : ctxkey) (fuel n : nat) (r : context) (w : World) :
  3 <= GetRetryFromContext r →
  1 <= GetAttemptsFromContext r →
  (7 <= fuel)%nat →
  result (serve Retry (KString "Attempts") always_fail fuel n (CallLb r) w) ≠ OutOfFuel
  ∧ (dispatches
       (effects (serve Retry (KString "Attempts") always_fail fuel n (CallLb r) w))
     <= 3)%nat.
Proof.
  intros Hretry Hatt Hfuel.
  apply (serve_failover_bounded Retry 3); [done| |lia|lia].
  unfold int_half. lia.
Qed.

Lemma exhausted_retries_fail_over_at_most_three_times_witness :
  let r := [(KString "Retry", AInt 3)] in
  let w := pool_of [fresh "a"; fresh "b"; fresh "c"; fresh "d"; fresh "e"] in
  3 <= GetRetryFromContext r
  ∧ 1 <= GetAttemptsFromContext r
  ∧ (7 <= 7)%nat
  ∧ result (serve (KString "Retry") (KString "Attempts") always_fail 7 0 (CallLb r) w)
    = Ok tt
  ∧ dispatches
      (effects (serve (KString "Retry") (KString "Attempts") always_fail 7 0 (CallLb r) w))
    = 3%nat
  ∧ result (serve (KString "Retry") (KString "Attempts") always_fail 7 0 (CallLb r) w)
    ≠ OutOfFuel
  ∧ (dispatches
       (effects (serve (KString "Retry") (KString "Attempts") always_fail 7 0 (CallLb r) w))
     <= 3)%nat.
Proof.
  cbv zeta. split; [by vm_compute|]. split; [by vm_compute|]. split; [lia|].
  split; [reflexivity|]. split; [reflexivity|].
  apply (exhausted_retries_fail_over_at_most_three_times (KString "Retry") 7 0
           [(KString "Retry", AInt 3)]
           (pool_of [fresh "a"; fresh "b"; fresh "c"; fresh "d"; fresh "e"]));
    [by vm_compute|by vm_compute|lia].
Defined.
